(** * MedDRA autofill: validation rules, retry queue and orchestrator

    A shallow embedding of the case-processing pipeline of
    [src/meddra_autofill]:

    - [models.py]: [CaseRecord], [ValidationResult];
    - [validation/rules.py]: [CaseValidator.validate];
    - [queue/job_queue.py]: [JobItem], [JobQueue];
    - [orchestration/orchestrator.py]: [ProcessingReport], [Orchestrator].

    Python [str] is a [string] of 8-bit characters, [int] is [Z], a [list]
    is a [list], the [raw_payload] dict is a [gmap string string].  A
    [JobItem] is a mutable object that the queue, the report and the caller
    share by reference: jobs live in a heap and are named by their
    location. *)

From Stdlib Require Import ZArith Ascii String.
From stdpp Require Import base list gmap strings.

Local Open Scope Z_scope.

(** ** Python strings *)

Module PyStr.

(** [bool(s)] for a [str]: non-empty. *)
Definition truthy (s : string) : bool :=
  match s with
  | EmptyString => false
  | String _ _ => true
  end.

Definition lower_char (c : ascii) : ascii :=
  let n := nat_of_ascii c in
  if ((65 <=? n) && (n <=? 90))%nat then ascii_of_nat (n + 32) else c.

Definition upper_char (c : ascii) : ascii :=
  let n := nat_of_ascii c in
  if ((97 <=? n) && (n <=? 122))%nat then ascii_of_nat (n - 32) else c.

Fixpoint map_chars (f : ascii → ascii) (s : string) : string :=
  match s with
  | EmptyString => EmptyString
  | String c s' => String (f c) (map_chars f s')
  end.

(** [s.lower()] and [s.upper()]. *)
Definition lower : string → string := map_chars lower_char.
Definition upper : string → string := map_chars upper_char.

(** [c.isspace()] on the code points below 256. *)
Definition is_space (c : ascii) : bool :=
  let n := nat_of_ascii c in
  (((9 <=? n) && (n <=? 13)) || ((28 <=? n) && (n <=? 32))
   || (n =? 133) || (n =? 160))%nat.

Fixpoint lstrip (s : string) : string :=
  match s with
  | EmptyString => EmptyString
  | String c s' => if is_space c then lstrip s' else s
  end.

Fixpoint rstrip (s : string) : string :=
  match s with
  | EmptyString => EmptyString
  | String c s' =>
      match rstrip s' with
      | EmptyString => if is_space c then EmptyString else String c EmptyString
      | t => String c t
      end
  end.

(** [s.strip()]. *)
Definition strip (s : string) : string := rstrip (lstrip s).

(** [x in xs] for a collection of strings. *)
Definition mem (x : string) (xs : list string) : bool :=
  existsb (String.eqb x) xs.

(** [len(s)]. *)
Definition len (s : string) : Z := Z.of_nat (String.length s).

Definition digit (n : Z) : ascii := ascii_of_nat (48 + Z.to_nat (n mod 10)).

(** ["%02d"] and ["%04d"], for the non-negative numbers of a date. *)
Definition pad2 (n : Z) : string :=
  String (digit (n / 10)) (String (digit n) EmptyString).
Definition pad4 (n : Z) : string :=
  String (digit (n / 1000)) (String (digit (n / 100)) (pad2 n)).

(** [repr] of a list of plain strings, as an f-string prints it. *)
Fixpoint repr_items (xs : list string) : string :=
  match xs with
  | [] => ""
  | [x] => "'" +:+ x +:+ "'"
  | x :: rest => "'" +:+ x +:+ "', " +:+ repr_items rest
  end.
Definition repr_list (xs : list string) : string :=
  "[" +:+ repr_items xs +:+ "]".

End PyStr.

(** ** [datetime.date] *)

Record date := mkdate { year : Z; month : Z; day : Z }.

(** Dates compare as the triples (year, month, day). *)
Definition date_lt (a b : date) : bool :=
  (year a <? year b)
  || ((year a =? year b)
      && ((month a <? month b)
          || ((month a =? month b) && (day a <? day b)))).

Definition date_gt (a b : date) : bool := date_lt b a.

(** [d.isoformat()]: YYYY-MM-DD. *)
Definition isoformat (d : date) : string :=
  PyStr.pad4 (year d) +:+ "-" +:+ PyStr.pad2 (month d) +:+ "-" +:+ PyStr.pad2 (day d).

(** ** models.py *)

Record CaseRecord := mkCaseRecord {
  case_id : string;
  reporter_type : option string;
  onset_date : option date;
  reaction_reported_term : option string;
  meddra_level : option string;
  meddra_term_text : option string;
  meddra_code : option string;
  meddra_version : option string;
  seriousness : option string;
  suspect_drug : option string;
  dose_text : option string;
  outcome : option string;
  narrative : option string;
  raw_payload : gmap string string
}.

(** The [record] attribute of a [ValidationResult] is [result_record] here:
    [JobItem] has a [record] attribute too. *)
Record ValidationResult := mkValidationResult {
  result_record : CaseRecord;
  is_valid : bool;
  errors : list string;
  warnings : list string
}.

Definition _clean (value : option string) : option string :=
  match value with
  | None => None
  | Some v =>
      let trimmed := PyStr.strip v in
      if PyStr.truthy trimmed then Some trimmed else None
  end.

Section FromDict.

(** [datetime.strptime(value, fmt).date()] of the standard library;
    [None] stands for its [ValueError]. *)
Variable strptime : string → string → option date.

Fixpoint try_formats (value : string) (formats : list string) : option date :=
  match formats with
  | [] => None
  | fmt :: rest =>
      match strptime value fmt with
      | Some d => Some d
      | None => try_formats value rest
      end
  end.

Definition _parse_date (value : string) : option date :=
  try_formats value ["%Y-%m-%d"; "%Y/%m/%d"; "%d-%m-%Y"; "%m/%d/%Y"].

(** [CaseRecord.from_dict(payload)]. *)
Definition from_dict (payload : gmap string string) : CaseRecord :=
  mkCaseRecord
    (PyStr.strip (default "" (payload !! "case_id")))
    (_clean (payload !! "reporter_type"))
    (match _clean (payload !! "onset_date") with
     | Some onset_date_raw => _parse_date onset_date_raw
     | None => None
     end)
    (_clean (payload !! "reaction_reported_term"))
    (_clean (payload !! "meddra_level"))
    (_clean (payload !! "meddra_term_text"))
    (_clean (payload !! "meddra_code"))
    (_clean (payload !! "meddra_version"))
    (_clean (payload !! "seriousness"))
    (_clean (payload !! "suspect_drug"))
    (_clean (payload !! "dose_text"))
    (_clean (payload !! "outcome"))
    (_clean (payload !! "narrative"))
    payload.

End FromDict.

(** The values [getattr(record, field_name)] can produce. *)
Inductive attr_value :=
| VNone
| VStr (s : string)
| VDate (d : date).

Definition of_opt_str (o : option string) : attr_value :=
  match o with
  | None => VNone
  | Some s => VStr s
  end.

Definition of_opt_date (o : option date) : attr_value :=
  match o with
  | None => VNone
  | Some d => VDate d
  end.

(** Truthiness: [None] and the empty string are false, a [date] is always
    true. *)
Definition truthy (v : attr_value) : bool :=
  match v with
  | VNone => false
  | VStr s => PyStr.truthy s
  | VDate _ => true
  end.

Definition opt_truthy (o : option string) : bool := truthy (of_opt_str o).

(** [getattr(record, name)] on the attributes of the dataclass.  The
    validator only asks for declared attributes; any other name is
    answered with [VNone] here. *)
Definition getattr (r : CaseRecord) (name : string) : attr_value :=
  if String.eqb name "case_id" then VStr (case_id r)
  else if String.eqb name "reporter_type" then of_opt_str (reporter_type r)
  else if String.eqb name "onset_date" then of_opt_date (onset_date r)
  else if String.eqb name "reaction_reported_term" then of_opt_str (reaction_reported_term r)
  else if String.eqb name "meddra_level" then of_opt_str (meddra_level r)
  else if String.eqb name "meddra_term_text" then of_opt_str (meddra_term_text r)
  else if String.eqb name "meddra_code" then of_opt_str (meddra_code r)
  else if String.eqb name "meddra_version" then of_opt_str (meddra_version r)
  else if String.eqb name "seriousness" then of_opt_str (seriousness r)
  else if String.eqb name "suspect_drug" then of_opt_str (suspect_drug r)
  else if String.eqb name "dose_text" then of_opt_str (dose_text r)
  else if String.eqb name "outcome" then of_opt_str (outcome r)
  else if String.eqb name "narrative" then of_opt_str (narrative r)
  else VNone.

(** ** validation/rules.py *)

Definition REQUIRED_FIELDS : list string :=
  ["case_id"; "reaction_reported_term"; "meddra_level"; "onset_date"].

(** The set literal, listed in sorted order. *)
Definition ALLOWED_MEDDRA_LEVELS : list string := ["LLT"; "PT"].

Definition MIN_ONSET_DATE : date := mkdate 1970 1 1.

(** The messages of the rules, as the f-strings build them. *)
Definition msg_missing (field_name : string) : string :=
  "Missing required field '" +:+ field_name +:+ "'".

Definition msg_too_early (d : date) : string :=
  "onset_date " +:+ isoformat d +:+ " is earlier than " +:+ isoformat MIN_ONSET_DATE.

Definition msg_future (d today : date) : string :=
  "onset_date " +:+ isoformat d +:+ " is in the future (>" +:+ isoformat today +:+ ")".

Definition msg_unparsed (raw : string) : string :=
  "onset_date '" +:+ raw +:+ "' could not be parsed; expected YYYY-MM-DD".

Definition msg_level (level : string) : string :=
  "meddra_level '" +:+ level +:+ "' must be one of "
    +:+ PyStr.repr_list ALLOWED_MEDDRA_LEVELS.

Definition msg_pair : string :=
  "meddra_term_text and meddra_code must be provided together".

Definition msg_narrative : string := "narrative exceeds 4000 character limit".

Definition msg_seriousness (value : string) : string :=
  "seriousness '" +:+ value +:+ "' not recognized; expected 'Serious' or 'Non-serious'".

(** [bool(xs)] for a list: non-empty. *)
Definition list_truthy {A : Type} (xs : list A) : bool :=
  match xs with
  | [] => false
  | _ :: _ => true
  end.

(** [if cond: xs.append(msg)]. *)
Definition append_if (cond : bool) (msg : string) (xs : list string) : list string :=
  if cond then xs ++ [msg] else xs.

(** The loop over [REQUIRED_FIELDS]. *)
Fixpoint check_required (r : CaseRecord) (fields : list string) (errs : list string)
  : list string :=
  match fields with
  | [] => errs
  | field_name :: rest =>
      check_required r rest
        (append_if (negb (truthy (getattr r field_name))) (msg_missing field_name) errs)
  end.

(** The [if record.onset_date: ... elif record.raw_payload.get("onset_date"):]
    block. *)
Definition check_onset (today : date) (r : CaseRecord) (errs : list string)
  : list string :=
  match onset_date r with
  | Some d =>
      let errs := append_if (date_lt d MIN_ONSET_DATE) (msg_too_early d) errs in
      append_if (date_gt d today) (msg_future d today) errs
  | None =>
      match raw_payload r !! "onset_date" with
      | Some raw => append_if (PyStr.truthy raw) (msg_unparsed raw) errs
      | None => errs
      end
  end.

Definition check_level (r : CaseRecord) (errs : list string) : list string :=
  match meddra_level r with
  | Some level =>
      append_if
        (PyStr.truthy level && negb (PyStr.mem (PyStr.upper level) ALLOWED_MEDDRA_LEVELS))
        (msg_level level) errs
  | None => errs
  end.

Definition check_pair (r : CaseRecord) (errs : list string) : list string :=
  let has_text := opt_truthy (meddra_term_text r) in
  let has_code := opt_truthy (meddra_code r) in
  append_if (negb (eqb has_text has_code)) msg_pair errs.

Definition check_narrative (r : CaseRecord) (errs : list string) : list string :=
  match narrative r with
  | Some text => append_if (PyStr.truthy text && (4000 <? PyStr.len text)) msg_narrative errs
  | None => errs
  end.

Definition check_seriousness (r : CaseRecord) (warns : list string) : list string :=
  let seriousness_value := default "" (seriousness r) in
  append_if
    (PyStr.truthy seriousness_value
     && negb (PyStr.mem (PyStr.lower seriousness_value) ["serious"; "non-serious"]))
    (msg_seriousness seriousness_value) warns.

(** [CaseValidator(today).validate(record)]. *)
Definition validate (today : date) (r : CaseRecord) : ValidationResult :=
  let errs := [] in
  let warns := [] in
  let errs := check_required r REQUIRED_FIELDS errs in
  let errs := check_onset today r errs in
  let errs := check_level r errs in
  let errs := check_pair r errs in
  let errs := check_narrative r errs in
  let warns := check_seriousness r warns in
  mkValidationResult r (negb (list_truthy errs)) errs warns.

Definition validate_many (today : date) (records : list CaseRecord)
  : list ValidationResult :=
  map (validate today) records.

(** ** queue/job_queue.py *)

Record JobItem := mkJobItem {
  record : CaseRecord;
  attempts : Z;
  max_attempts : Z;
  error_messages : list string
}.

(** [JobItem(record=record)], with the defaults of the dataclass. *)
Definition new_JobItem (r : CaseRecord) : JobItem := mkJobItem r 0 3 [].

Definition is_exhausted (job : JobItem) : bool := attempts job >=? max_attempts job.

(** Jobs are objects: the deque, the dead-letter list and the report hold
    references to them.  A reference is the index of the object in the
    heap; a new object goes to the end of the heap. *)
Definition loc := nat.

Record JobQueue := mkJobQueue {
  _queue : list loc;
  _dead_letter : list loc
}.

(** [JobQueue()]. *)
Definition JobQueue_init : JobQueue := mkJobQueue [] [].

Definition enqueue (h : list JobItem) (q : JobQueue) (r : CaseRecord)
  : list JobItem * JobQueue :=
  (h ++ [new_JobItem r], mkJobQueue (_queue q ++ [length h]) (_dead_letter q)).

Definition dequeue (q : JobQueue) : option loc * JobQueue :=
  match _queue q with
  | [] => (None, q)
  | job :: rest => (Some job, mkJobQueue rest (_dead_letter q))
  end.

(** [requeue(job, error_message)].  The result is [None] only for a
    reference to no object, which a Python caller cannot hold. *)
Definition requeue (h : list JobItem) (q : JobQueue) (job : loc) (error_message : string)
  : option (list JobItem * JobQueue) :=
  match h !! job with
  | None => None
  | Some j =>
      let j := mkJobItem (record j) (attempts j + 1) (max_attempts j) (error_messages j) in
      let j := mkJobItem (record j) (attempts j) (max_attempts j)
                 (error_messages j ++ [error_message]) in
      let h := <[job := j]> h in
      if is_exhausted j
      then Some (h, mkJobQueue (_queue q) (_dead_letter q ++ [job]))
      else Some (h, mkJobQueue (_queue q ++ [job]) (_dead_letter q))
  end.

(** The [dead_letter] property: a copy of the list. *)
Definition dead_letter (q : JobQueue) : list loc := _dead_letter q.

(** [len(queue)]. *)
Definition JobQueue_len (q : JobQueue) : Z := Z.of_nat (length (_queue q)).

(** ** execution/base_worker.py

    [process_job] "returns True when successful, False when a retryable
    failure occurred"; "permanent failures should raise an exception".
    [Raised] is an exception that [except Exception] in [run] catches. *)

Inductive answer :=
| Returned (success : bool)
| Raised.

#[global] Instance answer_eq_dec : EqDecision answer.
Proof. solve_decision. Defined.

Definition Success : answer := Returned true.
Definition Retry : answer := Returned false.

(** ** orchestration/orchestrator.py *)

Record ProcessingReport := mkReport {
  success_count : Z;
  retry_count : Z;
  failed_jobs : list loc;
  validation_errors : list ValidationResult
}.

(** [ProcessingReport()]. *)
Definition ProcessingReport_init : ProcessingReport := mkReport 0 0 [] [].

Definition total_attempted (report : ProcessingReport) : Z :=
  success_count report + retry_count report + Z.of_nat (length (failed_jobs report)).

(** One turn of the loop of [run], as an observer sees it: the job handed
    to [worker.process_job], what came back, and the jobs waiting in the
    deque when the turn ends. *)
Record dispatch := mkDispatch {
  d_job : loc;
  d_answer : answer;
  d_pending : list loc
}.

Section Orchestrator.

(** The worker is an object with a state of its own.  It reads the job it
    is given and returns a bool or raises; as the workers of
    [execution/] do, it leaves the [JobItem] as it is. *)
Context {W : Type}.
Variable process_job : W → JobItem → W * answer.

Record Orchestrator := mkOrchestrator {
  worker : W;
  queue : JobQueue
}.

(** [Orchestrator(worker, queue)]: [queue or JobQueue()], where a queue
    of length 0 is false. *)
Definition Orchestrator_init (w : W) (q : option JobQueue) : Orchestrator :=
  match q with
  | Some q => if JobQueue_len q =? 0 then mkOrchestrator w JobQueue_init
              else mkOrchestrator w q
  | None => mkOrchestrator w JobQueue_init
  end.

(** The heap, the orchestrator and the report of the call in progress. *)
Record machine := mkMachine {
  heap : list JobItem;
  orch : Orchestrator;
  report : ProcessingReport
}.

(** The body of the [for] loop of [enqueue_valid]. *)
Definition enqueue_result (m : machine) (result : ValidationResult) : machine :=
  if is_valid result
  then
    let '(h, q) := enqueue (heap m) (queue (orch m)) (result_record result) in
    mkMachine h (mkOrchestrator (worker (orch m)) q) (report m)
  else
    let rep := report m in
    mkMachine (heap m) (orch m)
      (mkReport (success_count rep) (retry_count rep) (failed_jobs rep)
         (validation_errors rep ++ [result])).

Definition enqueue_valid (h : list JobItem) (o : Orchestrator)
    (validation_results : list ValidationResult) : machine :=
  foldl enqueue_result (mkMachine h o ProcessingReport_init) validation_results.

(** One turn of the [while True] loop of [run]. *)
Inductive turn :=
| Break
| Continue (d : dispatch) (m : machine)
| NoObject.

Definition step (m : machine) : turn :=
  let rep := report m in
  match dequeue (queue (orch m)) with
  | (None, _) => Break
  | (Some job, q) =>
      match heap m !! job with
      | None => NoObject
      | Some j =>
          let '(w, res) := process_job (worker (orch m)) j in
          match res with
          | Raised =>
              Continue (mkDispatch job Raised (_queue q))
                (mkMachine (heap m) (mkOrchestrator w q)
                   (mkReport (success_count rep) (retry_count rep)
                      (failed_jobs rep ++ [job]) (validation_errors rep)))
          | Returned true =>
              Continue (mkDispatch job (Returned true) (_queue q))
                (mkMachine (heap m) (mkOrchestrator w q)
                   (mkReport (success_count rep + 1) (retry_count rep)
                      (failed_jobs rep) (validation_errors rep)))
          | Returned false =>
              match requeue (heap m) q job "worker requested retry" with
              | None => NoObject
              | Some (h, q) =>
                  Continue (mkDispatch job (Returned false) (_queue q))
                    (mkMachine h (mkOrchestrator w q)
                       (mkReport (success_count rep) (retry_count rep + 1)
                          (failed_jobs rep) (validation_errors rep)))
              end
          end
      end
  end.

(** The loop, for at most [fuel] turns: the calls of the worker in order
    and the machine at the [break]. *)
Fixpoint drain (fuel : nat) (m : machine) : option (list dispatch * machine) :=
  match fuel with
  | O => None
  | S fuel =>
      match step m with
      | Break => Some ([], m)
      | Continue d m' =>
          match drain fuel m' with
          | Some (ds, m'') => Some (d :: ds, m'')
          | None => None
          end
      | NoObject => None
      end
  end.

(** [report.failed_jobs.extend(self.queue.dead_letter)]. *)
Definition finalize (m : machine) : machine :=
  let rep := report m in
  mkMachine (heap m) (orch m)
    (mkReport (success_count rep) (retry_count rep)
       (failed_jobs rep ++ dead_letter (queue (orch m))) (validation_errors rep)).

Definition run (fuel : nat) (h : list JobItem) (o : Orchestrator)
    (validation_results : list ValidationResult)
  : option (list dispatch * machine) :=
  match drain fuel (enqueue_valid h o validation_results) with
  | Some (ds, m) => Some (ds, finalize m)
  | None => None
  end.

(** The turns of the loop, one after the other. *)
Inductive steps : machine → list dispatch → machine → Prop :=
| steps_nil m : steps m [] m
| steps_cons m d m' ds m'' :
    step m = Continue d m' → steps m' ds m'' → steps m (d :: ds) m''.

(** [run] returns: some number of turns is enough. *)
Definition run_returns (h : list JobItem) (o : Orchestrator)
    (validation_results : list ValidationResult)
    (ds : list dispatch) (m : machine) : Prop :=
  ∃ fuel, run fuel h o validation_results = Some (ds, m).

End Orchestrator.

Arguments Orchestrator : clear implicits.
Arguments machine : clear implicits.
Arguments turn : clear implicits.

(** The jobs of a log with a given answer, in the order of the calls. *)
Definition jobs_answered (a : answer) (ds : list dispatch) : list loc :=
  d_job <$> List.filter (λ d, bool_decide (d_answer d = a)) ds.

(** ** The calls of a client

    What a program that holds an orchestrator can call, on the queue or
    on the orchestrator itself, one call after the other. *)

Inductive op :=
| Enqueue (r : CaseRecord)
| Dequeue
| Requeue (job : loc) (error_message : string)
| DeadLetter
| Len
| EnqueueValid (validation_results : list ValidationResult)
| Run (validation_results : list ValidationResult).

Section Calls.

Context {W : Type}.
Variable process_job : W → JobItem → W * answer.

(** [call (h, o) op log (h', o')]: the call [op] takes the heap and the
    orchestrator from [(h, o)] to [(h', o')]; [log] lists the jobs that
    [requeue] was called on meanwhile, by the client or by [run]. *)
Inductive call :
  list JobItem * Orchestrator W → op → list loc → list JobItem * Orchestrator W → Prop :=
| call_enqueue h o r h' q' :
    enqueue h (queue o) r = (h', q') →
    call (h, o) (Enqueue r) [] (h', mkOrchestrator (worker o) q')
| call_dequeue h o job q' :
    dequeue (queue o) = (job, q') →
    call (h, o) Dequeue [] (h, mkOrchestrator (worker o) q')
| call_requeue h o job msg h' q' :
    requeue h (queue o) job msg = Some (h', q') →
    call (h, o) (Requeue job msg) [job] (h', mkOrchestrator (worker o) q')
| call_dead_letter h o :
    call (h, o) DeadLetter [] (h, o)
| call_len h o :
    call (h, o) Len [] (h, o)
| call_enqueue_valid h o results m :
    enqueue_valid h o results = m →
    call (h, o) (EnqueueValid results) [] (heap m, orch m)
| call_run h o results ds m :
    run_returns process_job h o results ds m →
    call (h, o) (Run results) (jobs_answered Retry ds) (heap m, orch m).

Inductive calls :
  list JobItem * Orchestrator W → list op → list loc → list JobItem * Orchestrator W → Prop :=
| calls_nil s : calls s [] [] s
| calls_cons s c log1 s1 cs log2 s2 :
    call s c log1 s1 → calls s1 cs log2 s2 → calls s (c :: cs) (log1 ++ log2) s2.

End Calls.

(** ** Notions used to state the properties *)

(** The records of the results that passed validation, and the results
    that did not, in the order of the input. *)
Definition valid_records (results : list ValidationResult) : list CaseRecord :=
  result_record <$> List.filter is_valid results.

Definition rejected (results : list ValidationResult) : list ValidationResult :=
  List.filter (λ result, negb (is_valid result)) results.

(** The deque and the dead-letter list of the orchestrator of a machine. *)
Definition pending {W} (m : machine W) : list loc := _queue (queue (orch m)).
Definition dead {W} (m : machine W) : list loc := _dead_letter (queue (orch m)).

(** A job after [n] calls of [requeue(job, "worker requested retry")]. *)
Definition retried (n : nat) (j : JobItem) : JobItem :=
  mkJobItem (record j) (attempts j + Z.of_nat n) (max_attempts j)
    (error_messages j ++ replicate n "worker requested retry").

(** The dispatches a job can still get: one, and one more for each
    attempt it has left. *)
Definition budget (h : list JobItem) (l : loc) : nat :=
  match h !! l with
  | Some j => S (Z.to_nat (max_attempts j - attempts j))
  | None => 0
  end.

(** A bound on the turns the loop of [run] still takes. *)
Definition turns_left {W} (m : machine W) : nat :=
  sum_list_with (budget (heap m)) (pending m).

(** Every reference in the deque is to an object. *)
Definition pending_ok {W} (m : machine W) : Prop :=
  ∀ l, l ∈ pending m → is_Some (heap m !! l).

(** How many times the job [l] occurs in a list of jobs. *)
Definition count_job (l : loc) (ls : list loc) : nat :=
  length (List.filter (Nat.eqb l) ls).

(** How many times the job [l] is dispatched in a log, and after how many
    of these turns it is back in the deque. *)
Definition dispatched (l : loc) (ds : list dispatch) : nat :=
  count_job l (d_job <$> ds).

Definition reappended (l : loc) (ds : list dispatch) : nat :=
  length (List.filter (λ d, bool_decide (d_job d = l ∧ l ∈ d_pending d)) ds).

(** Turn [i] of a log dispatches the job [l]; it is the first turn to do
    so; turn [i2] is the next one after turn [i]. *)
Definition job_at (ds : list dispatch) (i : nat) (l : loc) : Prop :=
  (d_job <$> ds) !! i = Some l.

Definition answer_at (ds : list dispatch) (i : nat) (a : answer) : Prop :=
  (d_answer <$> ds) !! i = Some a.

Definition first_at (ds : list dispatch) (i : nat) (l : loc) : Prop :=
  job_at ds i l ∧ ∀ k, (k < i)%nat → ¬ job_at ds k l.

Definition next_at (ds : list dispatch) (i i2 : nat) (l : loc) : Prop :=
  (i < i2)%nat ∧ job_at ds i2 l ∧ ∀ k, (i < k < i2)%nat → ¬ job_at ds k l.

(** Every job of the deque has an attempt left. *)
Definition live {W} (m : machine W) : Prop :=
  ∀ l, l ∈ pending m → ∃ j, heap m !! l = Some j ∧ attempts j < max_attempts j.

(** [a <= b] on dates, as triples in lexicographic order. *)
Definition date_le (a b : date) : Prop :=
  year a < year b
  ∨ (year a = year b
     ∧ (month a < month b ∨ (month a = month b ∧ day a ≤ day b))).

(** [a < b] on dates, in the same order. *)
Definition date_before (a b : date) : Prop :=
  year a < year b
  ∨ (year a = year b
     ∧ (month a < month b ∨ (month a = month b ∧ day a < day b))).

(** The errors of the onset-date rule all begin with the attribute name and
    a space; no other rule writes such a message. *)
Definition onset_rule_error (e : string) : bool := String.prefix "onset_date " e.

(** The record with another [seriousness]. *)
Definition with_seriousness (value : option string) (r : CaseRecord) : CaseRecord :=
  mkCaseRecord (case_id r) (reporter_type r) (onset_date r) (reaction_reported_term r)
    (meddra_level r) (meddra_term_text r) (meddra_code r) (meddra_version r)
    value (suspect_drug r) (dose_text r) (outcome r) (narrative r) (raw_payload r).

(** How many times [msg] occurs in [xs]. *)
Definition occurrences (msg : string) (xs : list string) : nat :=
  length (List.filter (String.eqb msg) xs).

(** ** ingestion/normalizer.py *)

Record RecordNormalizer := mkRecordNormalizer {
  default_meddra_level : string;
  default_meddra_version : string;
  alias_map : gmap string (list string)
}.

(** The [default_factory] of [alias_map]. *)
Definition default_alias_map : gmap string (list string) :=
  list_to_map
    [("reaction_reported_term", ["reaction_reported_term"; "reaction_term"; "reported_term"]);
     ("meddra_term_text", ["meddra_term_text"; "meddra_text"; "reaction_term"]);
     ("meddra_code", ["meddra_code"; "reaction_code"; "llt_code"; "pt_code"]);
     ("seriousness", ["seriousness"; "serious"]);
     ("suspect_drug", ["suspect_drug"; "drug_name"; "medicinal_product"]);
     ("dose_text", ["dose_text"; "dose"; "dose_information"]);
     ("outcome", ["outcome"; "reaction_outcome"]);
     ("onset_date", ["onset_date"; "reaction_onset_date"]);
     ("narrative", ["narrative"; "case_narrative"; "summary"])].

(** [RecordNormalizer()]. *)
Definition RecordNormalizer_init : RecordNormalizer :=
  mkRecordNormalizer "PT" "MOCK-1.0" default_alias_map.

(** The loop of [_resolve]: the stripped value of the first alias whose
    value in the row is not empty. *)
Fixpoint first_alias (row : gmap string string) (aliases : list string) : option string :=
  match aliases with
  | [] => None
  | alias :: rest =>
      match row !! alias with
      | Some value =>
          if PyStr.truthy value then Some (PyStr.strip value) else first_alias row rest
      | None => first_alias row rest
      end
  end.

Definition _resolve (N : RecordNormalizer) (row : gmap string string) (field : string)
  : option string :=
  first_alias row (default [] (alias_map N !! field)).

(** [d.setdefault(key, value)]: a key of the dict keeps its value. *)
Definition setdefault (key value : string) (d : gmap string string) : gmap string string :=
  match d !! key with
  | Some _ => d
  | None => <[key := value]> d
  end.

(** [if value: normalized.setdefault(key, value)]. *)
Definition set_if (key : string) (value : option string) (d : gmap string string)
  : gmap string string :=
  match value with
  | Some v => if PyStr.truthy v then setdefault key v d else d
  | None => d
  end.

(** The value the [seriousness] block writes. *)
Definition normal_seriousness (seriousness : string) : string :=
  let seriousness_clean := PyStr.lower (PyStr.strip seriousness) in
  if String.prefix "serious" seriousness_clean then "Serious"
  else if String.prefix "non" seriousness_clean then "Non-serious"
  else PyStr.strip seriousness.

Definition normalize_row (N : RecordNormalizer) (row : gmap string string)
  : gmap string string :=
  let normalized := row in
  let reaction_term := _resolve N row "reaction_reported_term" in
  let normalized := set_if "reaction_reported_term" reaction_term normalized in
  let normalized := set_if "meddra_term_text" reaction_term normalized in
  let normalized := set_if "meddra_code" (_resolve N row "meddra_code") normalized in
  let normalized := setdefault "meddra_level" (default_meddra_level N) normalized in
  let normalized := setdefault "meddra_version" (default_meddra_version N) normalized in
  let normalized :=
    match _resolve N row "seriousness" with
    | Some seriousness =>
        if PyStr.truthy seriousness
        then setdefault "seriousness" (normal_seriousness seriousness) normalized
        else normalized
    | None => normalized
    end in
  let normalized := set_if "suspect_drug" (_resolve N row "suspect_drug") normalized in
  let normalized := set_if "dose_text" (_resolve N row "dose_text") normalized in
  let normalized := set_if "outcome" (_resolve N row "outcome") normalized in
  let normalized := set_if "onset_date" (_resolve N row "onset_date") normalized in
  let narrative := _resolve N row "narrative" in
  if opt_truthy narrative
  then set_if "narrative" narrative normalized
  else
    match row !! "indication" with
    | Some indication =>
        if PyStr.truthy indication
        then setdefault "narrative" (PyStr.strip indication) normalized
        else normalized
    | None => normalized
    end.

Definition normalize_rows (N : RecordNormalizer) (rows : list (gmap string string))
  : list (gmap string string) :=
  map (normalize_row N) rows.

(** [records_from_iterable] of models.py. *)
Definition records_from_iterable (strptime : string → string → option date)
    (items : list (gmap string string)) : list CaseRecord :=
  map (from_dict strptime) items.

(** ** execution/playwright_worker.py and execution/selenium_worker.py

    What the worker does in the browser is a parameter, [session]: it
    ends normally ([true]) or with an exception ([false]). *)

Record PlaywrightWorker := mkPlaywrightWorker {
  dry_run : bool;
  target_url : option string
}.

Section Workers.

Context {B : Type}.
Variable session : B → JobItem → B * bool.

(** [PlaywrightWorker.process_job]; [installed] tells whether the import
    of Playwright succeeds. *)
Definition playwright_process_job (self : PlaywrightWorker) (installed : bool)
    (s : B) (job : JobItem) : B * answer :=
  if dry_run self then (s, Returned true)
  else if negb (opt_truthy (target_url self)) then (s, Raised)
  else if negb installed then (s, Returned true)
  else
    let '(s', ok) := session s job in
    (s', if ok then Returned true else Raised).

(** [SeleniumWorker.process_job]; [installed] tells whether [webdriver]
    was imported. *)
Definition selenium_process_job (installed : bool) (s : B) (job : JobItem) : B * answer :=
  if negb installed then (s, Returned true)
  else
    let '(s', ok) := session s job in
    (s', if ok then Returned true else Raised).

End Workers.

(** ** observability/reporting.py *)

(** The entry of a job in [failed_jobs_to_dict]. *)
Definition job_details (job : JobItem) : Z * list string :=
  (attempts job, error_messages job).

(** The dict comprehension of [failed_jobs_to_dict]: a later job with the
    same case id takes the place of an earlier one. *)
Definition failed_jobs_to_dict (jobs : list JobItem) : gmap string (Z * list string) :=
  foldl (λ d job, <[case_id (record job) := job_details job]> d) ∅ jobs.

(** The ["failed_jobs"] entry of [report_to_dict]. *)
Definition failed_case_ids (jobs : list JobItem) : list string :=
  map (λ job, case_id (record job)) jobs.

(** ** scripts/run_batch.py *)

(** The exit status of [main]: 1 if [report.failed_jobs], 0 otherwise. *)
Definition exit_status (report : ProcessingReport) : Z :=
  if list_truthy (failed_jobs report) then 1 else 0.

(** From the rows of the input file to the validation results. *)
Definition batch_results (N : RecordNormalizer) (strptime : string → string → option date)
    (today : date) (raw_rows : list (gmap string string)) : list ValidationResult :=
  let normalized_rows := normalize_rows N raw_rows in
  let records := records_from_iterable strptime normalized_rows in
  validate_many today records.

(** ** Sample inputs *)

(** A record that is complete but for what the arguments say, and a
    validator run on it. *)
Definition sample_case (id : string) (onset : option date) (term : option string)
    (serious : option string) (payload : gmap string string) : CaseRecord :=
  mkCaseRecord id (Some "Physician") onset term (Some "PT") None None
    (Some "MOCK-1.0") serious (Some "DrugX") None None None payload.

Definition sample_record (id : string) : CaseRecord :=
  sample_case id (Some (mkdate 2024 3 5)) (Some "Headache") (Some "Serious") ∅.

Definition sample_today : date := mkdate 2025 1 1.

Definition sample_result (id : string) : ValidationResult :=
  validate sample_today (sample_record id).

(** A worker that asks to retry the case [id] and succeeds on any other. *)
Definition retry_only (id : string) (s : unit) (job : JobItem) : unit * answer :=
  (s, if String.eqb (case_id (record job)) id then Retry else Success).

(** A worker that raises on the case [id] and succeeds on any other. *)
Definition raise_only (id : string) (s : unit) (job : JobItem) : unit * answer :=
  (s, if String.eqb (case_id (record job)) id then Raised else Success).

(** A worker that gives the same answer to every job. *)
Definition always (a : answer) (s : unit) (job : JobItem) : unit * answer := (s, a).

(** A worker that answers from a script, and reports success once the
    script is over. *)
Definition scripted (s : list answer) (job : JobItem) : list answer * answer :=
  match s with
  | [] => ([], Success)
  | a :: rest => (rest, a)
  end.

(** A stand-in for [strptime] that knows one date in two formats. *)
Definition sample_strptime (value fmt : string) : option date :=
  if (String.eqb value "2024-03-05" && String.eqb fmt "%Y-%m-%d")
     || (String.eqb value "05-03-2024" && String.eqb fmt "%d-%m-%Y")
  then Some (mkdate 2024 3 5)
  else None.

(** A browser session that always ends normally. *)
Definition sample_session (s : unit) (job : JobItem) : unit * bool := (s, true).

(** A heap and an orchestrator after an earlier run: job 0 is a dead
    letter, job 1 is still in the deque. *)
Definition used_heap : list JobItem :=
  [mkJobItem (sample_record "OLD-1") 3 3
     ["worker requested retry"; "worker requested retry"; "worker requested retry"];
   new_JobItem (sample_record "OLD-2")].

Definition used_orchestrator : Orchestrator unit :=
  mkOrchestrator tt (mkJobQueue [1%nat] [0%nat]).

(** Rows as the ingestion reads them. *)
Definition sample_row_term_only : gmap string string :=
  {[ "case_id" := "CASE-7"; "reaction_term" := " Headache ";
     "onset_date" := "2024-03-05" ]}.

Definition sample_row_complete : gmap string string :=
  {[ "case_id" := "CASE-8"; "reaction_term" := "Nausea"; "pt_code" := "10028813";
     "onset_date" := "2024-03-05" ]}.

(** * Properties *)

(** ** The validator *)

Section Validator.

Implicit Types (r : CaseRecord) (errs xs : list string) (today d : date).

Lemma append_if_app cond msg xs : append_if cond msg xs = xs ++ append_if cond msg [].
Proof. destruct cond; simpl; [reflexivity | by rewrite app_nil_r]. Qed.

Lemma check_required_app r fields errs :
  check_required r fields errs = errs ++ check_required r fields [].
Proof.
  revert errs; induction fields as [|f fields IH]; intros errs; simpl.
  - by rewrite app_nil_r.
  - rewrite IH, (IH (append_if _ _ [])), append_if_app. by rewrite app_assoc.
Qed.

Lemma check_onset_app today r errs :
  check_onset today r errs = errs ++ check_onset today r [].
Proof.
  unfold check_onset. destruct (onset_date r) as [d|].
  - rewrite append_if_app, (append_if_app _ _ errs), (append_if_app _ _ (append_if _ _ [])).
    by rewrite app_assoc.
  - destruct (raw_payload r !! "onset_date"); [apply append_if_app | by rewrite app_nil_r].
Qed.

Lemma check_level_app r errs : check_level r errs = errs ++ check_level r [].
Proof.
  unfold check_level. destruct (meddra_level r); [apply append_if_app | by rewrite app_nil_r].
Qed.

Lemma check_pair_app r errs : check_pair r errs = errs ++ check_pair r [].
Proof. apply append_if_app. Qed.

Lemma check_narrative_app r errs : check_narrative r errs = errs ++ check_narrative r [].
Proof.
  unfold check_narrative. destruct (narrative r); [apply append_if_app | by rewrite app_nil_r].
Qed.

(** Every rule runs, and each one appends to what the earlier ones found. *)
Lemma validate_errors today r :
  errors (validate today r) =
    check_required r REQUIRED_FIELDS [] ++ check_onset today r []
      ++ check_level r [] ++ check_pair r [] ++ check_narrative r [].
Proof.
  unfold validate; cbn [errors].
  rewrite check_narrative_app, check_pair_app, check_level_app, check_onset_app.
  by rewrite <- !app_assoc.
Qed.

Lemma validate_warnings today r :
  warnings (validate today r) = check_seriousness r [].
Proof. reflexivity. Qed.

Lemma validate_is_valid today r :
  is_valid (validate today r) = negb (list_truthy (errors (validate today r))).
Proof. reflexivity. Qed.

End Validator.

Section ValidatorClaims.

Implicit Types (r : CaseRecord) (errs xs : list string) (today d : date).

Lemma list_truthy_false {A} (xs : list A) : list_truthy xs = false ↔ xs = [].
Proof. destruct xs; simpl; split; congruence. Qed.

Lemma mem_false x (xs : list string) :
  PyStr.mem x xs = false ↔ ∀ y, y ∈ xs → x ≠ y.
Proof.
  unfold PyStr.mem. induction xs as [|y xs IH]; simpl.
  - split; [intros _ y Hy; inversion Hy | done].
  - rewrite orb_false_iff, IH, String.eqb_neq. split.
    + intros [Hxy Hall] z Hz. apply elem_of_cons in Hz as [->|Hz]; auto.
    + intros Hall. split; [apply Hall; left | intros z Hz; apply Hall; by right].
Qed.

Lemma check_seriousness_errors_free today r value :
  errors (validate today (with_seriousness value r)) = errors (validate today r).
Proof. by rewrite !validate_errors. Qed.

(** C5: [is_valid] holds exactly when no error was collected, whatever
    the warnings; a seriousness that is non-empty and, in lower case,
    neither "serious" nor "non-serious" gives exactly one warning and no
    error, so validity is what it would be without the seriousness. *)
Theorem validate_valid_iff_no_errors today r :
  (is_valid (validate today r) = true ↔ errors (validate today r) = [])
  ∧ (∀ value,
       seriousness r = Some value →
       value ≠ "" →
       PyStr.lower value ≠ "serious" →
       PyStr.lower value ≠ "non-serious" →
       warnings (validate today r) = [msg_seriousness value]
       ∧ errors (validate today r) = errors (validate today (with_seriousness None r))
       ∧ is_valid (validate today r) = is_valid (validate today (with_seriousness None r))).
Proof.
  split.
  - rewrite validate_is_valid, negb_true_iff. apply list_truthy_false.
  - intros value Hs Hne Hl1 Hl2. split; [|split].
    + rewrite validate_warnings. unfold check_seriousness. rewrite Hs.
      change (default "" (Some value)) with value.
      assert (PyStr.truthy value = true) as -> by (destruct value; done).
      assert (PyStr.mem (PyStr.lower value) ["serious"; "non-serious"] = false) as ->.
      { apply mem_false. intros y Hy.
        apply elem_of_cons in Hy as [->|Hy]; [done|].
        apply elem_of_cons in Hy as [->|Hy]; [done|]. inversion Hy. }
      reflexivity.
    + by rewrite check_seriousness_errors_free.
    + by rewrite !validate_is_valid, check_seriousness_errors_free.
Qed.

Lemma date_lt_before a b : date_lt a b = true ↔ date_before a b.
Proof.
  unfold date_lt, date_before.
  rewrite !orb_true_iff, !andb_true_iff, !orb_true_iff, !andb_true_iff,
    !Z.ltb_lt, !Z.eqb_eq.
  reflexivity.
Qed.

Lemma date_le_not_before a b : date_le a b → date_lt b a = false.
Proof.
  intros Hle. apply not_true_is_false. rewrite date_lt_before.
  unfold date_le, date_before in *. lia.
Qed.

Lemma date_le_refl a : date_le a a.
Proof. unfold date_le. lia. Qed.

Lemma required_no_onset_rule_error r :
  List.filter onset_rule_error (check_required r REQUIRED_FIELDS []) = [].
Proof.
  unfold check_required, REQUIRED_FIELDS, append_if.
  repeat match goal with |- context [negb ?b] => destruct (negb b) end; reflexivity.
Qed.

Lemma others_no_onset_rule_error r :
  List.filter onset_rule_error (check_level r []) = []
  ∧ List.filter onset_rule_error (check_pair r []) = []
  ∧ List.filter onset_rule_error (check_narrative r []) = [].
Proof.
  unfold check_level, check_pair, check_narrative, append_if.
  destruct (meddra_level r) as [level|], (narrative r) as [text|];
    repeat match goal with |- context [if ?b then _ else _] => destruct b end;
    repeat split; reflexivity.
Qed.

(** The errors of the onset-date rule, among all the errors of a record. *)
Lemma onset_rule_errors today r :
  List.filter onset_rule_error (errors (validate today r)) = check_onset today r [].
Proof.
  rewrite validate_errors, !List.filter_app.
  rewrite required_no_onset_rule_error.
  destruct (others_no_onset_rule_error r) as (-> & -> & ->).
  rewrite app_nil_r. simpl.
  unfold check_onset, append_if.
  destruct (onset_date r) as [d|].
  - destruct (date_lt d MIN_ONSET_DATE), (date_gt d today); reflexivity.
  - destruct (raw_payload r !! "onset_date") as [raw|]; [|reflexivity].
    destruct (PyStr.truthy raw); reflexivity.
Qed.

Lemma msg_too_early_not_future d today : msg_too_early d ≠ msg_future d today.
Proof.
  unfold msg_too_early, msg_future, isoformat, PyStr.pad4, PyStr.pad2. simpl.
  intros H. inversion H.
Qed.

Lemma onset_error_in_errors today r e :
  e ∈ check_onset today r [] → e ∈ errors (validate today r).
Proof. rewrite validate_errors, !elem_of_app. auto. Qed.

Lemma onset_error_iff today r e :
  onset_rule_error e = true →
  e ∈ errors (validate today r) ↔ e ∈ check_onset today r [].
Proof.
  intros He. rewrite <- onset_rule_errors, !list_elem_of_In, List.filter_In. tauto.
Qed.


(** C6: a parsed onset date gives the earlier-than-1970-01-01 error
    exactly when it is before that day and the in-the-future error
    exactly when it is after the reference date; the two are different
    errors, and from 1970-01-01 to the reference date, both included,
    there is no error of this rule; an absent onset date whose raw value
    is a non-empty string gives the could-not-be-parsed error. *)
Theorem onset_date_rule today r :
  (∀ d, onset_date r = Some d →
     (msg_too_early d ∈ errors (validate today r) ↔ date_before d MIN_ONSET_DATE)
     ∧ (msg_future d today ∈ errors (validate today r) ↔ date_before today d)
     ∧ msg_too_early d ≠ msg_future d today
     ∧ (date_le MIN_ONSET_DATE d → date_le d today →
        List.filter onset_rule_error (errors (validate today r)) = []))
  ∧ (onset_date r = None →
     ∀ raw, raw_payload r !! "onset_date" = Some raw → raw ≠ "" →
       msg_unparsed raw ∈ errors (validate today r)).
Proof.
  split.
  - intros d Hd.
    pose proof (msg_too_early_not_future d today) as Hne.
    assert (check_onset today r [] =
              (if date_lt d MIN_ONSET_DATE then [msg_too_early d] else [])
              ++ (if date_lt today d then [msg_future d today] else [])) as Hrule.
    { unfold check_onset, date_gt, append_if. rewrite Hd.
      by destruct (date_lt d MIN_ONSET_DATE), (date_lt today d). }
    split_and!.
    + rewrite onset_error_iff, Hrule, <- date_lt_before by reflexivity.
      rewrite elem_of_app.
      destruct (date_lt d MIN_ONSET_DATE), (date_lt today d);
        rewrite ?list_elem_of_singleton, ?elem_of_nil; intuition congruence.
    + rewrite onset_error_iff, Hrule, <- date_lt_before by reflexivity.
      rewrite elem_of_app.
      destruct (date_lt d MIN_ONSET_DATE), (date_lt today d);
        rewrite ?list_elem_of_singleton, ?elem_of_nil; intuition congruence.
    + done.
    + intros Hlo Hhi. rewrite onset_rule_errors, Hrule.
      by rewrite (date_le_not_before _ _ Hlo), (date_le_not_before _ _ Hhi).
  - intros Hnone raw Hraw Hne. apply onset_error_in_errors.
    unfold check_onset. rewrite Hnone, Hraw.
    destruct raw; [done|]. simpl. left.
Qed.

Lemma occurrences_app msg xs ys :
  occurrences msg (xs ++ ys) = (occurrences msg xs + occurrences msg ys)%nat.
Proof. unfold occurrences. by rewrite List.filter_app, length_app. Qed.

Lemma occurrences_elem_of msg xs : (0 < occurrences msg xs)%nat → msg ∈ xs.
Proof.
  unfold occurrences. induction xs as [|x xs IH]; simpl; [lia|].
  destruct (String.eqb msg x) eqn:E.
  - apply String.eqb_eq in E as ->. left.
  - right. auto.
Qed.

Lemma required_occurrences r f :
  f ∈ REQUIRED_FIELDS →
  occurrences (msg_missing f) (check_required r REQUIRED_FIELDS []) =
    if truthy (getattr r f) then 0%nat else 1%nat.
Proof.
  unfold REQUIRED_FIELDS at 1. intros Hf.
  repeat (apply elem_of_cons in Hf as [->|Hf]); [..|inversion Hf];
    unfold check_required, REQUIRED_FIELDS, append_if;
    destruct (truthy (getattr r "case_id")),
      (truthy (getattr r "reaction_reported_term")),
      (truthy (getattr r "meddra_level")),
      (truthy (getattr r "onset_date")); reflexivity.
Qed.

Lemma onset_no_missing today r f :
  occurrences (msg_missing f) (check_onset today r []) = 0%nat.
Proof.
  unfold check_onset, append_if.
  destruct (onset_date r) as [d|].
  - destruct (date_lt d MIN_ONSET_DATE), (date_gt d today); reflexivity.
  - destruct (raw_payload r !! "onset_date") as [raw|]; [|reflexivity].
    destruct (PyStr.truthy raw); reflexivity.
Qed.

Lemma level_no_missing r f : occurrences (msg_missing f) (check_level r []) = 0%nat.
Proof.
  unfold check_level, append_if. destruct (meddra_level r) as [level|]; [|reflexivity].
  match goal with |- context [if ?b then _ else _] => destruct b end; reflexivity.
Qed.

Lemma pair_no_missing r f : occurrences (msg_missing f) (check_pair r []) = 0%nat.
Proof.
  unfold check_pair, append_if.
  match goal with |- context [if ?b then _ else _] => destruct b end; reflexivity.
Qed.

Lemma narrative_no_missing r f :
  occurrences (msg_missing f) (check_narrative r []) = 0%nat.
Proof.
  unfold check_narrative, append_if. destruct (narrative r) as [text|]; [|reflexivity].
  match goal with |- context [if ?b then _ else _] => destruct b end; reflexivity.
Qed.

(** The missing-field errors of a record come from the required-field
    loop alone. *)
Lemma missing_occurrences today r f :
  f ∈ REQUIRED_FIELDS →
  occurrences (msg_missing f) (errors (validate today r)) =
    if truthy (getattr r f) then 0%nat else 1%nat.
Proof.
  intros Hf. rewrite validate_errors, !occurrences_app.
  rewrite (required_occurrences r f Hf), onset_no_missing, level_no_missing,
    pair_no_missing, narrative_no_missing.
  lia.
Qed.

(** C7: every rule is evaluated and its errors are kept; each required
    field that is empty gives exactly one missing-field error; a record
    without onset date and without reported term has two different
    errors at least. *)
Theorem required_fields_accumulate today r :
  errors (validate today r) =
    check_required r REQUIRED_FIELDS [] ++ check_onset today r []
      ++ check_level r [] ++ check_pair r [] ++ check_narrative r []
  ∧ (∀ f, f ∈ REQUIRED_FIELDS →
       occurrences (msg_missing f) (errors (validate today r)) =
         if truthy (getattr r f) then 0%nat else 1%nat)
  ∧ (onset_date r = None →
     opt_truthy (reaction_reported_term r) = false →
     msg_missing "onset_date" ∈ errors (validate today r)
     ∧ msg_missing "reaction_reported_term" ∈ errors (validate today r)
     ∧ msg_missing "onset_date" ≠ msg_missing "reaction_reported_term"
     ∧ (2 ≤ length (errors (validate today r)))%nat).
Proof.
  split; [apply validate_errors|]. split; [apply missing_occurrences|].
  intros Hdate Hterm.
  assert (occurrences (msg_missing "onset_date") (errors (validate today r)) = 1%nat) as H1.
  { rewrite missing_occurrences by (unfold REQUIRED_FIELDS; set_solver).
    change (getattr r "onset_date") with (of_opt_date (onset_date r)). by rewrite Hdate. }
  assert (occurrences (msg_missing "reaction_reported_term")
            (errors (validate today r)) = 1%nat) as H2.
  { rewrite missing_occurrences by (unfold REQUIRED_FIELDS; set_solver).
    change (getattr r "reaction_reported_term")
      with (of_opt_str (reaction_reported_term r)).
    unfold opt_truthy in Hterm. by rewrite Hterm. }
  assert (msg_missing "onset_date" ∈ errors (validate today r)) as E1
    by (apply occurrences_elem_of; lia).
  assert (msg_missing "reaction_reported_term" ∈ errors (validate today r)) as E2
    by (apply occurrences_elem_of; lia).
  split; [done|]. split; [done|]. split; [done|].
  destruct (errors (validate today r)) as [|a [|b rest]]; simpl; [| |lia].
  - inversion E1.
  - apply list_elem_of_singleton in E1, E2. rewrite <- E1 in E2. discriminate E2.
Qed.

Lemma unparsed_other_rules r raw :
  occurrences (msg_unparsed raw) (check_required r REQUIRED_FIELDS []) = 0%nat
  ∧ occurrences (msg_unparsed raw) (check_level r []) = 0%nat
  ∧ occurrences (msg_unparsed raw) (check_pair r []) = 0%nat
  ∧ occurrences (msg_unparsed raw) (check_narrative r []) = 0%nat.
Proof.
  unfold check_required, REQUIRED_FIELDS, check_level, check_pair, check_narrative,
    append_if.
  destruct (meddra_level r) as [level|], (narrative r) as [text|];
    repeat match goal with |- context [if ?b then _ else _] => destruct b end;
    repeat split; reflexivity.
Qed.

Lemma unparsed_record_errors today r raw :
  onset_date r = None →
  raw_payload r !! "onset_date" = Some raw →
  raw ≠ "" →
  occurrences (msg_missing "onset_date") (errors (validate today r)) = 1%nat
  ∧ occurrences (msg_unparsed raw) (errors (validate today r)) = 1%nat
  ∧ msg_missing "onset_date" ≠ msg_unparsed raw.
Proof.
  intros Hdate Hraw Hne. split; [|split].
  - rewrite missing_occurrences by (unfold REQUIRED_FIELDS; set_solver).
    change (getattr r "onset_date") with (of_opt_date (onset_date r)). by rewrite Hdate.
  - rewrite validate_errors, !occurrences_app.
    destruct (unparsed_other_rules r raw) as (-> & -> & -> & ->).
    unfold check_onset. rewrite Hdate, Hraw.
    destruct raw as [|c raw]; [done|].
    unfold append_if, occurrences; cbn [PyStr.truthy List.filter app].
    by rewrite String.eqb_refl.
  - discriminate.
Qed.

Section Parsing.

Variable strptime : string → string → option date.

Lemma from_dict_onset_absent payload raw :
  payload !! "onset_date" = Some raw →
  _parse_date strptime (PyStr.strip raw) = None →
  onset_date (from_dict strptime payload) = None.
Proof.
  intros Hraw Hparse. unfold from_dict; cbn [onset_date]. rewrite Hraw.
  unfold _clean. cbv zeta. destruct (PyStr.truthy (PyStr.strip raw)); done.
Qed.

(** C10: an onset date that is absent from the record while the raw
    payload has a non-empty string for it is reported twice, as a
    missing required field and as a value that could not be parsed;
    this is what [from_dict] produces from a string that no format
    parses. *)
Theorem unparsed_onset_date_two_errors today :
  (∀ r raw,
     onset_date r = None →
     raw_payload r !! "onset_date" = Some raw →
     raw ≠ "" →
     occurrences (msg_missing "onset_date") (errors (validate today r)) = 1%nat
     ∧ occurrences (msg_unparsed raw) (errors (validate today r)) = 1%nat
     ∧ msg_missing "onset_date" ≠ msg_unparsed raw)
  ∧ (∀ payload raw,
       payload !! "onset_date" = Some raw →
       raw ≠ "" →
       _parse_date strptime (PyStr.strip raw) = None →
       let r := from_dict strptime payload in
       onset_date r = None
       ∧ msg_missing "onset_date" ∈ errors (validate today r)
       ∧ msg_unparsed raw ∈ errors (validate today r)
       ∧ msg_missing "onset_date" ≠ msg_unparsed raw).
Proof.
  split; [apply unparsed_record_errors|].
  intros payload raw Hraw Hne Hparse r.
  assert (onset_date r = None) as Hdate by by eapply from_dict_onset_absent.
  destruct (unparsed_record_errors today r raw Hdate Hraw Hne) as (H1 & H2 & H3).
  split; [done|]. split; [|split]; [apply occurrences_elem_of; lia..|done].
Qed.

End Parsing.

End ValidatorClaims.

(** ** The queue and the orchestrator *)

Section OrchestratorFacts.

Context {W : Type} (process_job : W → JobItem → W * answer).

Abbreviation machine := (machine W).
Abbreviation step := (step process_job).
Abbreviation steps := (steps process_job).
Abbreviation drain := (drain process_job).
Abbreviation run := (run process_job).
Abbreviation run_returns := (run_returns process_job).

Implicit Types (m : machine) (d : dispatch) (ds : list dispatch) (l job : loc)
  (h : list JobItem) (q : JobQueue) (j : JobItem) (w : W)
  (results : list ValidationResult).

(** *** The enqueue phase *)

Lemma foldl_enqueue_result m results :
  foldl enqueue_result m results =
    mkMachine
      (heap m ++ (new_JobItem <$> valid_records results))
      (mkOrchestrator (worker (orch m))
         (mkJobQueue
            (pending m ++ seq (length (heap m)) (length (valid_records results)))
            (dead m)))
      (mkReport (success_count (report m)) (retry_count (report m))
         (failed_jobs (report m))
         (validation_errors (report m) ++ rejected results)).
Proof.
  revert m. induction results as [|result results IH]; intros m.
  - destruct m as [h [w [qu dl]] [sc rc fj ve]]. unfold pending, dead; simpl.
    by rewrite !app_nil_r.
  - cbn [foldl]. rewrite IH. unfold enqueue_result, valid_records, rejected.
    cbn [List.filter]. destruct (is_valid result); cbn [negb].
    + unfold enqueue, pending, dead. cbn [heap orch report worker queue _queue _dead_letter].
      rewrite fmap_cons. cbn [length seq fmap list_fmap].
      rewrite length_app, <- !app_assoc. cbn [length app].
      by rewrite Nat.add_1_r.
    + cbn [heap orch report worker queue validation_errors success_count retry_count
             failed_jobs].
      by rewrite <- app_assoc.
Qed.

Lemma enqueue_valid_eq h (o : Orchestrator W) results :
  enqueue_valid h o results =
    mkMachine
      (h ++ (new_JobItem <$> valid_records results))
      (mkOrchestrator (worker o)
         (mkJobQueue
            (_queue (queue o) ++ seq (length h) (length (valid_records results)))
            (_dead_letter (queue o))))
      (mkReport 0 0 [] (rejected results)).
Proof. unfold enqueue_valid. by rewrite foldl_enqueue_result. Qed.

(** *** One turn *)

Lemma requeue_Some h q job msg j :
  h !! job = Some j →
  let j' := mkJobItem (record j) (attempts j + 1) (max_attempts j)
              (error_messages j ++ [msg]) in
  requeue h q job msg =
    Some (<[job := j']> h,
          if is_exhausted j'
          then mkJobQueue (_queue q) (_dead_letter q ++ [job])
          else mkJobQueue (_queue q ++ [job]) (_dead_letter q)).
Proof.
  intros Hj. unfold requeue. rewrite Hj. cbn [record attempts max_attempts error_messages].
  by destruct (is_exhausted _).
Qed.

Lemma step_Break m : step m = Break ↔ pending m = [].
Proof.
  unfold step, dequeue, pending. destruct (_queue (queue (orch m))) as [|job rest].
  - done.
  - split; [|done]. destruct (heap m !! job) as [j|] eqn:Hj; [|done].
    destruct (process_job _ j) as [w [[]|]]; [done| |done].
    erewrite requeue_Some by done. done.
Qed.

(** What a turn that dispatches a job does, by the answer of the worker. *)
Lemma step_Continue m d m' :
  step m = Continue d m' →
  ∃ job rest j,
    pending m = job :: rest
    ∧ heap m !! job = Some j
    ∧ d_job d = job
    ∧ d_answer d = (process_job (worker (orch m)) j).2
    ∧ d_pending d = pending m'
    ∧ worker (orch m') = (process_job (worker (orch m)) j).1
    ∧ validation_errors (report m') = validation_errors (report m)
    ∧ ((d_answer d = Raised
        ∧ heap m' = heap m ∧ pending m' = rest ∧ dead m' = dead m
        ∧ failed_jobs (report m') = failed_jobs (report m) ++ [job]
        ∧ success_count (report m') = success_count (report m)
        ∧ retry_count (report m') = retry_count (report m))
       ∨ (d_answer d = Success
          ∧ heap m' = heap m ∧ pending m' = rest ∧ dead m' = dead m
          ∧ failed_jobs (report m') = failed_jobs (report m)
          ∧ success_count (report m') = success_count (report m) + 1
          ∧ retry_count (report m') = retry_count (report m))
       ∨ (d_answer d = Retry
          ∧ heap m' = <[job := retried 1 j]> (heap m)
          ∧ failed_jobs (report m') = failed_jobs (report m)
          ∧ success_count (report m') = success_count (report m)
          ∧ retry_count (report m') = retry_count (report m) + 1
          ∧ ((is_exhausted (retried 1 j) = true
              ∧ pending m' = rest ∧ dead m' = dead m ++ [job])
             ∨ (is_exhausted (retried 1 j) = false
                ∧ pending m' = rest ++ [job] ∧ dead m' = dead m)))).
Proof.
  unfold step, dequeue, pending, dead.
  destruct (_queue (queue (orch m))) as [|job rest]; [done|].
  destruct (heap m !! job) as [j|] eqn:Hj; [|done].
  destruct (process_job (worker (orch m)) j) as [w res] eqn:Hw.
  destruct res as [[]|].
  - intros [= <- <-]. exists job, rest, j. rewrite Hw. simpl.
    do 7 (split; [done|]). right; left. by repeat split.
  - erewrite requeue_Some by done. cbv zeta.
    change (mkJobItem (record j) (attempts j + 1) (max_attempts j)
              (error_messages j ++ ["worker requested retry"])) with (retried 1 j).
    intros [= <- <-]. exists job, rest, j. rewrite Hw. simpl.
    do 7 (split; [done|]). right; right. do 5 (split; [done|]).
    destruct (is_exhausted (retried 1 j)) eqn:Hex; simpl; [left | right]; by repeat split.
  - intros [= <- <-]. exists job, rest, j. rewrite Hw. simpl.
    do 7 (split; [done|]). left. by repeat split.
Qed.

(** *** The loop *)

Lemma drain_steps fuel m ds m' :
  drain fuel m = Some (ds, m') → steps m ds m' ∧ pending m' = [].
Proof.
  revert m ds m'. induction fuel as [|fuel IH]; intros m ds m'; simpl; [done|].
  destruct (step m) as [|d m1|] eqn:Hstep; [| |done].
  - intros [= <- <-]. split; [constructor | by apply step_Break].
  - destruct (drain fuel m1) as [[ds1 m2]|] eqn:Hd; [|done].
    intros [= <- <-]. destruct (IH _ _ _ Hd). split; [econstructor|]; eauto.
Qed.

Lemma drain_S fuel m :
  drain (S fuel) m =
    match step m with
    | Break => Some ([], m)
    | Continue d m' =>
        match drain fuel m' with
        | Some (ds, m'') => Some (d :: ds, m'')
        | None => None
        end
    | NoObject => None
    end.
Proof. reflexivity. Qed.

Lemma steps_drain m ds m' :
  steps m ds m' → pending m' = [] → drain (S (length ds)) m = Some (ds, m').
Proof.
  induction 1 as [m|m d m1 ds m2 Hstep Hsteps IH]; intros Hend.
  - rewrite drain_S. apply step_Break in Hend. by rewrite Hend.
  - cbn [length]. rewrite drain_S, Hstep, (IH Hend). done.
Qed.

Lemma steps_app m ds1 ds2 m'' :
  steps m (ds1 ++ ds2) m'' ↔ ∃ m', steps m ds1 m' ∧ steps m' ds2 m''.
Proof.
  revert m. induction ds1 as [|d ds1 IH]; intros m; simpl.
  - split; [intros H; exists m; split; [constructor|done] |].
    intros (m' & H1 & H2). by inversion H1; subst.
  - split.
    + intros H. inversion H as [|? ? m1 ? ? Hstep Hrest]; subst.
      apply IH in Hrest as (m' & H1 & H2). exists m'. split; [econstructor|]; eauto.
    + intros (m' & H1 & H2). inversion H1 as [|? ? m1 ? ? Hstep Hrest]; subst.
      econstructor; [done|]. apply IH. eauto.
Qed.

Lemma steps_functional m ds1 m1 ds2 m2 :
  steps m ds1 m1 → pending m1 = [] →
  steps m ds2 m2 → pending m2 = [] →
  ds1 = ds2 ∧ m1 = m2.
Proof.
  intros H1. revert ds2 m2. induction H1 as [m|m d m' ds m'' Hstep Hsteps IH];
    intros ds2 m2 Hend1 H2 Hend2.
  - apply step_Break in Hend1. inversion H2; subst; [done | congruence].
  - inversion H2 as [|? d' m3 ds3 ? Hstep' Hrest]; subst.
    + apply step_Break in Hend2. congruence.
    + rewrite Hstep in Hstep'. injection Hstep' as <- <-.
      destruct (IH _ _ Hend1 Hrest Hend2) as [-> ->]. done.
Qed.

(** *** What the loop keeps *)

Lemma jobs_answered_cons a d ds :
  jobs_answered a (d :: ds) =
    if bool_decide (d_answer d = a) then d_job d :: jobs_answered a ds
    else jobs_answered a ds.
Proof. unfold jobs_answered. simpl. by destruct (bool_decide _). Qed.

Lemma jobs_answered_app a ds1 ds2 :
  jobs_answered a (ds1 ++ ds2) = jobs_answered a ds1 ++ jobs_answered a ds2.
Proof. unfold jobs_answered. by rewrite List.filter_app, fmap_app. Qed.

Lemma jobs_answered_subseteq a ds : jobs_answered a ds ⊆ (d_job <$> ds).
Proof.
  induction ds as [|d ds IH]; [done|]. rewrite jobs_answered_cons, fmap_cons.
  destruct (bool_decide _).
  - intros x [->|Hx]%elem_of_cons; [left | right; by apply IH].
  - intros x Hx. right. by apply IH.
Qed.

(** The counters of the report count the answers; [failed_jobs] grows by
    the jobs whose dispatch raised; no job is lost or duplicated. *)
Lemma steps_accounts m ds m' :
  steps m ds m' →
  failed_jobs (report m') = failed_jobs (report m) ++ jobs_answered Raised ds
  ∧ success_count (report m') =
      success_count (report m) + Z.of_nat (length (jobs_answered Success ds))
  ∧ retry_count (report m') =
      retry_count (report m) + Z.of_nat (length (jobs_answered Retry ds))
  ∧ validation_errors (report m') = validation_errors (report m)
  ∧ length (heap m') = length (heap m)
  ∧ (∃ dl, dead m' = dead m ++ dl ∧ dl ⊆ jobs_answered Retry ds)
  ∧ jobs_answered Success ds ++ jobs_answered Raised ds ++ dead m' ++ pending m'
      ≡ₚ dead m ++ pending m.
Proof.
  induction 1 as [m|m d m1 ds m2 Hstep Hsteps IH].
  - unfold jobs_answered; simpl. rewrite app_nil_r.
    split_and!; [done | lia | lia | done | done | | done].
    exists []. by rewrite app_nil_r.
  - destruct IH as (Hf & Hs & Hr & Hv & Hh & (dl & Hd & Hdl) & Hp).
    apply step_Continue in Hstep
      as (job & rest & j & Hq & Hj & Hjob & _ & _ & _ & Hv1 & Hcase).
    rewrite !jobs_answered_cons, Hjob.
    destruct Hcase as [(-> & Hh1 & Hq1 & Hd1 & Hf1 & Hs1 & Hr1)
                      |[(-> & Hh1 & Hq1 & Hd1 & Hf1 & Hs1 & Hr1)
                       |(-> & Hh1 & Hf1 & Hs1 & Hr1 & Hex)]]; simpl.
    + rewrite Hf, Hs, Hr, Hv, Hh, Hf1, Hs1, Hr1, Hv1, Hh1, Hq, <- Hd1, <- app_assoc.
      split_and!; try done.
      * exists dl. by rewrite Hd.
      * rewrite Hq1 in Hp. rewrite <- !Permutation_middle. by rewrite Hp.
    + rewrite Hf, Hs, Hr, Hv, Hh, Hf1, Hs1, Hr1, Hv1, Hh1, Hq, <- Hd1.
      split_and!; try done; try lia.
      * exists dl. by rewrite Hd.
      * rewrite Hq1 in Hp. cbn [app]. rewrite <- !Permutation_middle. by rewrite Hp.
    + rewrite Hf, Hs, Hr, Hv, Hh, Hf1, Hs1, Hr1, Hv1, Hh1, Hq, length_insert.
      split_and!; try done; try lia.
      * destruct Hex as [(_ & _ & Hd1)|(_ & _ & Hd1)]; rewrite Hd, Hd1.
        -- exists (job :: dl). rewrite <- app_assoc. split; [done|].
           intros x [->|Hx]%elem_of_cons; [left | right; auto].
        -- exists dl. split; [done|]. intros x Hx. right. auto.
      * destruct Hex as [(_ & Hq1 & Hd1)|(_ & Hq1 & Hd1)];
          rewrite Hq1, Hd1 in Hp; rewrite Hp.
        -- by rewrite <- app_assoc.
        -- f_equiv. symmetry. apply Permutation_cons_append.
Qed.

Lemma retried_S n j : retried n (retried 1 j) = retried (S n) j.
Proof.
  unfold retried; simpl. f_equal; [lia|]. by rewrite <- app_assoc.
Qed.

Lemma retried_0 j : retried 0 j = j.
Proof. destruct j. unfold retried; simpl. by rewrite Z.add_0_r, app_nil_r. Qed.

Lemma count_job_cons l x ls :
  count_job l (x :: ls) = if decide (l = x) then S (count_job l ls) else count_job l ls.
Proof.
  unfold count_job; simpl. destruct (Nat.eqb_spec l x), (decide (l = x)); done.
Qed.

(** A job changes only when the worker asks to retry it, and each time
    by one call of [requeue]. *)
Lemma steps_heap m ds m' l j :
  steps m ds m' →
  heap m !! l = Some j →
  heap m' !! l = Some (retried (count_job l (jobs_answered Retry ds)) j).
Proof.
  intros Hsteps. revert j. induction Hsteps as [m|m d m1 ds m2 Hstep Hsteps IH]; intros j Hl.
  - by rewrite retried_0.
  - apply step_Continue in Hstep
      as (job & rest & j0 & Hq & Hj & Hjob & _ & _ & _ & Hv1 & Hcase).
    rewrite jobs_answered_cons, Hjob.
    destruct Hcase as [(-> & Hh1 & _)|[(-> & Hh1 & _)|(-> & Hh1 & _)]]; simpl.
    + apply IH. by rewrite Hh1.
    + apply IH. by rewrite Hh1.
    + rewrite count_job_cons. destruct (decide (l = job)) as [->|Hne].
      * rewrite <- retried_S. apply IH. rewrite Hh1.
        assert (j = j0) as -> by congruence.
        apply list_lookup_insert_eq. by eapply lookup_lt_Some.
      * apply IH. rewrite Hh1. by rewrite list_lookup_insert_ne.
Qed.

(** *** The loop ends *)

Lemma step_progress m job rest :
  pending m = job :: rest → is_Some (heap m !! job) → ∃ d m', step m = Continue d m'.
Proof.
  unfold pending, step, dequeue. intros -> [j Hj]. rewrite Hj.
  destruct (process_job (worker (orch m)) j) as [w [[]|]]; eauto.
  erewrite requeue_Some by done. eauto.
Qed.

Lemma budget_requeue h job j l :
  h !! job = Some j → (budget (<[job := retried 1 j]> h) l ≤ budget h l)%nat.
Proof.
  intros Hj. unfold budget. destruct (decide (l = job)) as [->|Hne].
  - rewrite list_lookup_insert_eq by by eapply lookup_lt_Some.
    rewrite Hj. unfold retried; simpl. lia.
  - by rewrite list_lookup_insert_ne.
Qed.

Lemma budget_requeue_pending h job j :
  h !! job = Some j →
  is_exhausted (retried 1 j) = false →
  S (budget (<[job := retried 1 j]> h) job) = budget h job.
Proof.
  intros Hj Hex. unfold budget.
  rewrite list_lookup_insert_eq by by eapply lookup_lt_Some.
  rewrite Hj. unfold is_exhausted, retried in *; simpl in *.
  rewrite Z.geb_leb in Hex. apply Z.leb_gt in Hex. lia.
Qed.

Lemma sum_budget_le h h' (ls : list loc) :
  (∀ l, budget h' l ≤ budget h l)%nat →
  (sum_list_with (budget h') ls ≤ sum_list_with (budget h) ls)%nat.
Proof.
  intros Hle. induction ls as [|l ls IH]; [done|].
  cbn [sum_list_with]. specialize (Hle l). lia.
Qed.

Lemma step_decreases m d m' :
  step m = Continue d m' → pending_ok m →
  (turns_left m' < turns_left m)%nat ∧ pending_ok m'.
Proof.
  intros Hstep Hok.
  apply step_Continue in Hstep
    as (job & rest & j & Hq & Hj & _ & _ & _ & _ & _ & Hcase).
  assert (0 < budget (heap m) job)%nat as Hpos by (unfold budget; rewrite Hj; lia).
  assert (∀ l, l ∈ rest → is_Some (heap m !! l)) as Hrest.
  { intros l Hl. apply Hok. rewrite Hq. by right. }
  unfold turns_left, pending_ok. rewrite Hq. cbn [sum_list_with].
  destruct Hcase as [(_ & -> & -> & _)|[(_ & -> & -> & _)|(_ & -> & _ & _ & _ & Hex)]].
  - split; [lia | done].
  - split; [lia | done].
  - assert (∀ l, is_Some (heap m !! l) →
                 is_Some (<[job := retried 1 j]> (heap m) !! l)) as Hkeep.
    { intros l Hl. apply lookup_lt_is_Some. rewrite length_insert.
      by apply lookup_lt_is_Some. }
    pose proof (sum_budget_le (heap m) (<[job := retried 1 j]> (heap m)) rest
                  (λ l, budget_requeue _ _ _ l Hj)) as Hle.
    destruct Hex as [(_ & -> & _)|(Hex & -> & _)].
    + split; [lia | auto].
    + rewrite sum_list_with_app. cbn [sum_list_with].
      pose proof (budget_requeue_pending _ _ _ Hj Hex). split; [lia|].
      intros l [Hl|Hl%list_elem_of_singleton]%elem_of_app; [auto|].
      subst l. apply Hkeep. eauto.
Qed.

(** Every job has a bounded number of attempts, so the queue runs empty. *)
Lemma drain_terminates m :
  pending_ok m → ∃ ds m', steps m ds m' ∧ pending m' = [].
Proof.
  remember (turns_left m) as n eqn:Hn. revert m Hn.
  induction n as [n IH] using lt_wf_ind. intros m -> Hok.
  destruct (pending m) as [|job rest] eqn:Hq.
  - exists [], m. split; [constructor | done].
  - destruct (step_progress m job rest Hq) as (d & m1 & Hstep).
    { apply Hok. rewrite Hq. left. }
    destruct (step_decreases _ _ _ Hstep Hok) as [Hlt Hok1].
    destruct (IH _ Hlt m1 eq_refl Hok1) as (ds & m2 & Hsteps & Hend).
    exists (d :: ds), m2. split; [econstructor|]; eauto.
Qed.

(** *** Who is dispatched *)

Lemma step_pending m d m' :
  step m = Continue d m' →
  ∃ rest, pending m = d_job d :: rest
          ∧ (pending m' = rest ∨ pending m' = rest ++ [d_job d])
          ∧ (∀ l, l ≠ d_job d → heap m' !! l = heap m !! l).
Proof.
  intros (job & rest & j & Hq & Hj & <- & _ & _ & _ & _ & Hcase)%step_Continue.
  exists rest. split; [done|].
  destruct Hcase as [(_ & -> & -> & _)|[(_ & -> & -> & _)|(_ & -> & _ & _ & _ & Hex)]];
    [auto..|].
  split.
  - destruct Hex as [(_ & -> & _)|(_ & -> & _)]; auto.
  - intros l Hl. by rewrite list_lookup_insert_ne.
Qed.

Lemma step_pending_rest m d m' job rest :
  pending m = job :: rest → step m = Continue d m' →
  ∀ l, l ≠ job → l ∈ rest ↔ l ∈ pending m'.
Proof.
  intros Hq (rest' & Hq' & Hq1 & _)%step_pending l Hl.
  rewrite Hq in Hq'. injection Hq' as Hjob <-. rewrite <- Hjob in Hq1.
  destruct Hq1 as [-> | ->]; [done|]. rewrite elem_of_app, list_elem_of_singleton.
  split; [auto | intros [?|?]; [done | congruence]].
Qed.

Lemma step_pending_elem m d m' l :
  step m = Continue d m' → l ∈ pending m' → l ∈ pending m.
Proof.
  intros (rest & -> & [-> | ->] & _)%step_pending Hl.
  - by right.
  - apply elem_of_app in Hl as [Hl|Hl%list_elem_of_singleton]; [by right | subst; left].
Qed.

Lemma step_NoDup m d m' :
  step m = Continue d m' → NoDup (pending m) → NoDup (pending m').
Proof.
  intros (rest & -> & [-> | ->] & _)%step_pending [Hnotin Hnd]%NoDup_cons; [done|].
  apply NoDup_app. split_and!; [done | | apply NoDup_singleton].
  intros l Hl ->%list_elem_of_singleton. done.
Qed.

Lemma steps_NoDup m ds m' : steps m ds m' → NoDup (pending m) → NoDup (pending m').
Proof. induction 1; eauto using step_NoDup. Qed.

(** Only jobs of the deque are dispatched. *)
Lemma steps_dispatched_pending m ds m' l :
  steps m ds m' → l ∈ (d_job <$> ds) → l ∈ pending m.
Proof.
  induction 1 as [m|m d m1 ds m2 Hstep Hsteps IH]; [by intros ?%elem_of_nil|].
  rewrite fmap_cons. intros [->|Hl]%elem_of_cons.
  - apply step_pending in Hstep as (rest & -> & _). left.
  - eapply step_pending_elem; eauto.
Qed.

(** A job out of the deque stays as it is. *)
Lemma steps_untouched m ds m' l :
  steps m ds m' → l ∉ pending m → heap m' !! l = heap m !! l.
Proof.
  induction 1 as [m|m d m1 ds m2 Hstep Hsteps IH]; [done|]. intros Hl.
  rewrite IH by (intros ?; apply Hl; eapply step_pending_elem; eauto).
  apply step_pending in Hstep as (rest & Hq & _ & Hheap). apply Hheap.
  intros ->. apply Hl. rewrite Hq. left.
Qed.

(** The loop ends with an empty deque: every job of the deque has been
    dispatched by then. *)
Lemma steps_all_dispatched m ds m' l :
  steps m ds m' → pending m' = [] → l ∈ pending m → l ∈ (d_job <$> ds).
Proof.
  induction 1 as [m|m d m1 ds m2 Hstep Hsteps IH]; intros Hend Hl.
  - rewrite Hend in Hl. by apply elem_of_nil in Hl.
  - rewrite fmap_cons. destruct (decide (l = d_job d)) as [->|Hne]; [left|right].
    apply IH; [done|].
    apply step_pending in Hstep as (rest & Hq & Hq1 & _). rewrite Hq in Hl.
    apply elem_of_cons in Hl as [?|Hl]; [done|].
    destruct Hq1 as [-> | ->]; [done|]. apply elem_of_app. by left.
Qed.

Lemma steps_split m pre d post m' :
  steps m (pre ++ d :: post) m' →
  ∃ m1 m2, steps m pre m1 ∧ step m1 = Continue d m2 ∧ steps m2 post m'.
Proof.
  intros (m1 & Hpre & Hrest)%steps_app.
  inversion Hrest as [|? ? m2 ? ? Hstep Hpost]; subst. eauto.
Qed.

Lemma count_job_notin l (ls : list loc) : l ∉ ls → count_job l ls = 0%nat.
Proof.
  induction ls as [|x ls IH]; [done|]. rewrite count_job_cons.
  intros Hl. destruct (decide (l = x)) as [->|Hne].
  - exfalso. apply Hl. left.
  - apply IH. intros ?. apply Hl. by right.
Qed.

Lemma count_job_app l (ls1 ls2 : list loc) :
  count_job l (ls1 ++ ls2) = (count_job l ls1 + count_job l ls2)%nat.
Proof. unfold count_job. by rewrite List.filter_app, length_app. Qed.

Lemma jobs_answered_notin a ds l : l ∉ (d_job <$> ds) → l ∉ jobs_answered a ds.
Proof. intros Hl Hin. by apply Hl, (jobs_answered_subseteq a). Qed.

(** *** Retries *)

Lemma step_live m d m' :
  step m = Continue d m' → NoDup (pending m) → live m → live m'.
Proof.
  intros Hstep Hnd Hlive.
  apply step_Continue in Hstep
    as (job & rest & j & Hq & Hj & _ & _ & _ & _ & _ & Hcase).
  rewrite Hq in Hnd. apply NoDup_cons in Hnd as [Hnotin _].
  assert (∀ l, l ∈ rest → ∃ j, heap m !! l = Some j ∧ attempts j < max_attempts j)
    as Hrest.
  { intros l Hl. apply Hlive. rewrite Hq. by right. }
  unfold live.
  destruct Hcase as [(_ & -> & -> & _)|[(_ & -> & -> & _)|(_ & -> & _ & _ & _ & Hex)]];
    [done..|].
  assert (∀ l, l ∈ rest →
            ∃ j', <[job := retried 1 j]> (heap m) !! l = Some j'
                  ∧ attempts j' < max_attempts j') as Hrest'.
  { intros l Hl. rewrite list_lookup_insert_ne by (intros ->; done). auto. }
  destruct Hex as [(_ & -> & _)|(Hex & -> & _)]; [done|].
  intros l [Hl|Hl%list_elem_of_singleton]%elem_of_app; [auto|]. subst l.
  exists (retried 1 j). split.
  - apply list_lookup_insert_eq. by eapply lookup_lt_Some.
  - unfold is_exhausted in Hex. rewrite Z.geb_leb in Hex. by apply Z.leb_gt in Hex.
Qed.

(** A job is dead-lettered by the retry that uses its last attempt. *)
Lemma steps_dead_exhausted m ds m' :
  steps m ds m' → NoDup (pending m) → live m →
  ∃ dl, dead m' = dead m ++ dl
        ∧ ∀ l, l ∈ dl → ∃ j, heap m' !! l = Some j ∧ attempts j = max_attempts j.
Proof.
  induction 1 as [m|m d m1 ds m2 Hstep Hsteps IH]; intros Hnd Hlive.
  - exists []. rewrite app_nil_r. split; [done|]. by intros l ?%elem_of_nil.
  - destruct (IH (step_NoDup _ _ _ Hstep Hnd) (step_live _ _ _ Hstep Hnd Hlive))
      as (dl & Hd & Hdl).
    apply step_Continue in Hstep
      as (job & rest & j & Hq & Hj & _ & _ & _ & _ & _ & Hcase).
    destruct Hcase as [(_ & _ & _ & Hd1 & _)|[(_ & _ & _ & Hd1 & _)
                      |(_ & Hh1 & _ & _ & _ & [(Hex & Hq1 & Hd1)|(_ & _ & Hd1)])]];
      [exists dl; rewrite Hd, Hd1; auto.. | | exists dl; rewrite Hd, Hd1; auto].
    exists (job :: dl). rewrite Hd, Hd1, <- app_assoc. split; [done|].
    intros l [->|Hl]%elem_of_cons; [|auto].
    exists (retried 1 j). split.
    + rewrite (steps_untouched _ _ _ _ Hsteps).
      * rewrite Hh1. apply list_lookup_insert_eq. by eapply lookup_lt_Some.
      * rewrite Hq1. rewrite Hq in Hnd. by apply NoDup_cons in Hnd as [? _].
    + destruct (Hlive job) as (j' & Hj' & Hlt); [rewrite Hq; left|].
      assert (j' = j) as -> by congruence.
      unfold is_exhausted in Hex. rewrite Z.geb_leb in Hex. apply Z.leb_le in Hex.
      unfold retried in *; simpl in *. lia.
Qed.

Lemma dispatched_by_answer l ds :
  dispatched l ds =
    (count_job l (jobs_answered Success ds) + count_job l (jobs_answered Raised ds)
     + count_job l (jobs_answered Retry ds))%nat.
Proof.
  unfold dispatched. induction ds as [|d ds IH]; [done|].
  rewrite fmap_cons, !jobs_answered_cons, count_job_cons, IH.
  destruct (d_answer d) as [[]|]; simpl; rewrite count_job_cons;
    destruct (decide (l = d_job d)); lia.
Qed.

Lemma reappended_cons l d ds :
  reappended l (d :: ds) =
    ((if bool_decide (d_job d = l ∧ l ∈ d_pending d) then 1 else 0)
     + reappended l ds)%nat.
Proof. unfold reappended; simpl. by destruct (bool_decide _). Qed.

(** Each dispatch takes the job off the deque: a job that was in the
    deque once is put back once less than it is dispatched. *)
Lemma dispatched_reappended m ds m' l :
  steps m ds m' → pending m' = [] → NoDup (pending m) →
  dispatched l ds =
    ((if bool_decide (l ∈ pending m) then 1 else 0) + reappended l ds)%nat.
Proof.
  unfold dispatched.
  induction 1 as [m|m d m1 ds m2 Hstep Hsteps IH]; intros Hend Hnd.
  - rewrite Hend. rewrite bool_decide_eq_false_2 by apply not_elem_of_nil. done.
  - specialize (IH Hend (step_NoDup _ _ _ Hstep Hnd)).
    rewrite fmap_cons, count_job_cons, reappended_cons, IH.
    pose proof Hstep as Hstep'.
    apply step_Continue in Hstep
      as (job & rest & j & Hq & _ & Hjob & _ & Hpend & _).
    rewrite Hpend, Hjob.
    pose proof (step_pending_rest _ _ _ _ _ Hq Hstep') as Hrest. clear IH.
    destruct (decide (l = job)) as [->|Hne].
    + rewrite (bool_decide_eq_true_2 (job ∈ pending m)) by (rewrite Hq; left).
      destruct (bool_decide (job ∈ pending m1)) eqn:E.
      * apply bool_decide_eq_true in E. rewrite bool_decide_eq_true_2 by done. lia.
      * apply bool_decide_eq_false in E.
        rewrite bool_decide_eq_false_2 by (intros [_ ?]; done). lia.
    + rewrite (bool_decide_eq_false_2 (job = l ∧ _)) by (intros [? _]; done).
      rewrite (bool_decide_ext (l ∈ pending m) (l ∈ pending m1)); [lia|].
      rewrite Hq. rewrite elem_of_cons. split.
      * intros [?|Hl]; [done|]. by apply Hrest.
      * intros Hl. right. by apply Hrest.
Qed.

Lemma elem_of_jobs_answered a ds l :
  l ∈ jobs_answered a ds → ∃ d, d ∈ ds ∧ d_job d = l ∧ d_answer d = a.
Proof.
  induction ds as [|d ds IH]; [by intros ?%elem_of_nil|].
  rewrite jobs_answered_cons. destruct (bool_decide _) eqn:E.
  - apply bool_decide_eq_true in E.
    intros [->|Hl]%elem_of_cons.
    + exists d. split; [left | done].
    + destruct (IH Hl) as (d' & ? & ? & ?). exists d'. split; [by right | done].
  - intros Hl. destruct (IH Hl) as (d' & ? & ? & ?). exists d'. split; [by right | done].
Qed.

Lemma count_job_all l (ls : list loc) :
  (∀ x, x ∈ ls → x = l) → count_job l ls = length ls.
Proof.
  induction ls as [|x ls IH]; [done|]. intros Hall.
  rewrite count_job_cons, (Hall x) by left.
  rewrite decide_True by done. cbn [length]. f_equal.
  apply IH. intros y Hy. apply Hall. by right.
Qed.

(** *** The first pass over the deque *)

Lemma steps_prefix m ds m' ds1 m1 :
  steps m ds m' → pending m' = [] → steps m ds1 m1 →
  ∃ ds2, ds = ds1 ++ ds2 ∧ steps m1 ds2 m'.
Proof.
  intros Hsteps Hend Hpre. revert ds Hsteps.
  induction Hpre as [m|m d ma ds1 m1 Hstep Hpre IH]; intros ds Hsteps.
  - by exists ds.
  - inversion Hsteps as [|? d' ma' ds' ? Hstep' Hrest]; subst.
    + apply step_Break in Hend. congruence.
    + rewrite Hstep in Hstep'. injection Hstep' as <- <-.
      destruct (IH _ Hrest) as (ds2 & -> & Hpost). by exists ds2.
Qed.

(** Jobs that can be retried at least once are dispatched in the order of
    the deque; those that answer retry queue up behind the others. *)
Lemma first_pass front m back :
  pending m = front ++ back →
  NoDup front →
  (∀ l, l ∈ front → ∃ j, heap m !! l = Some j ∧ attempts j + 1 < max_attempts j) →
  ∃ ds1 m1,
    steps m ds1 m1 ∧ d_job <$> ds1 = front
    ∧ pending m1 = back ++ jobs_answered Retry ds1.
Proof.
  revert m back. induction front as [|l front IH]; intros m back Hq Hnd Hfresh.
  - exists [], m. split_and!; [constructor | done |].
    unfold jobs_answered; simpl. by rewrite app_nil_r.
  - apply NoDup_cons in Hnd as [Hnotin Hnd].
    destruct (Hfresh l) as (j & Hj & Hlt); [left|].
    destruct (step_progress m l (front ++ back) Hq) as (d & m' & Hstep); [eauto|].
    pose proof (step_pending _ _ _ Hstep) as (rest & Hq' & _ & Hheap).
    rewrite Hq in Hq'. injection Hq' as Hjob _.
    assert (∀ l', l' ∈ front →
              ∃ j', heap m' !! l' = Some j' ∧ attempts j' + 1 < max_attempts j')
      as Hfresh'.
    { intros l' Hl'. rewrite Hheap by (rewrite <- Hjob; intros ->; done).
      apply Hfresh. by right. }
    pose proof (step_Continue _ _ _ Hstep)
      as (job & rest' & j0 & Hq0 & Hj0 & _ & _ & _ & _ & _ & Hcase).
    rewrite Hq in Hq0. injection Hq0 as <- <-.
    assert (j0 = j) as -> by congruence.
    assert (is_exhausted (retried 1 j) = false) as Hnot.
    { unfold is_exhausted, retried; simpl. rewrite Z.geb_leb. apply Z.leb_gt. lia. }
    destruct Hcase as [(Ha & _ & Hq1 & _)|[(Ha & _ & Hq1 & _)
                      |(Ha & _ & _ & _ & _ & [(Hex & _)|(_ & Hq1 & _)])]];
      [| |congruence|].
    + destruct (IH m' back Hq1 Hnd Hfresh') as (ds1 & m1 & Hsteps & Hjobs & Hq2).
      exists (d :: ds1), m1. rewrite fmap_cons, jobs_answered_cons, Ha, Hjobs, <- Hjob.
      split_and!; [econstructor; eauto | done | done].
    + destruct (IH m' back Hq1 Hnd Hfresh') as (ds1 & m1 & Hsteps & Hjobs & Hq2).
      exists (d :: ds1), m1. rewrite fmap_cons, jobs_answered_cons, Ha, Hjobs, <- Hjob.
      split_and!; [econstructor; eauto | done | done].
    + rewrite <- app_assoc in Hq1.
      destruct (IH m' (back ++ [l]) Hq1 Hnd Hfresh') as (ds1 & m1 & Hsteps & Hjobs & Hq2).
      exists (d :: ds1), m1. rewrite fmap_cons, jobs_answered_cons, Ha, Hjobs, <- Hjob.
      rewrite bool_decide_eq_true_2 by done. rewrite <- app_assoc in Hq2.
      split_and!; [econstructor; eauto | done | done].
Qed.

(** *** [run] on an orchestrator with a queue of its own *)

Lemma run_drain fuel h (o : Orchestrator W) results :
  run fuel h o results =
    match drain fuel (enqueue_valid h o results) with
    | Some (ds, m) => Some (ds, finalize m)
    | None => None
    end.
Proof. reflexivity. Qed.

Lemma run_returns_steps h (o : Orchestrator W) results ds m :
  run_returns h o results ds m ↔
    ∃ m1, steps (enqueue_valid h o results) ds m1 ∧ pending m1 = [] ∧ m = finalize m1.
Proof.
  unfold run_returns. split.
  - intros [fuel Hrun]. rewrite run_drain in Hrun.
    destruct (drain fuel (enqueue_valid h o results)) as [[ds1 m1]|] eqn:Hd; [|done].
    injection Hrun as <- <-. apply drain_steps in Hd as [? ?]. eauto.
  - intros (m1 & Hsteps & Hend & ->). exists (S (length ds)).
    by rewrite run_drain, (steps_drain _ _ _ Hsteps Hend).
Qed.

Lemma run_returns_functional h (o : Orchestrator W) results ds1 m1 ds2 m2 :
  run_returns h o results ds1 m1 → run_returns h o results ds2 m2 →
  ds1 = ds2 ∧ m1 = m2.
Proof.
  intros (n1 & H1 & E1 & ->)%run_returns_steps (n2 & H2 & E2 & ->)%run_returns_steps.
  by destruct (steps_functional _ _ _ _ _ H1 E1 H2 E2) as [-> ->].
Qed.

Lemma fresh_pending_ok h w results :
  pending_ok (enqueue_valid h (Orchestrator_init w None) results).
Proof.
  rewrite enqueue_valid_eq. intros l. unfold pending; simpl.
  intros Hl%elem_of_seq. apply lookup_lt_is_Some.
  rewrite length_app, length_fmap. lia.
Qed.

(** The machine after the enqueue phase of a new orchestrator. *)
Lemma fresh_machine h w results :
  let m0 := enqueue_valid h (Orchestrator_init w None) results in
  pending m0 = seq (length h) (length (valid_records results))
  ∧ dead m0 = []
  ∧ report m0 = mkReport 0 0 [] (rejected results)
  ∧ NoDup (pending m0)
  ∧ (∀ l, l ∈ pending m0 →
       ∃ r, r ∈ valid_records results ∧ heap m0 !! l = Some (new_JobItem r)).
Proof.
  intros m0. subst m0. rewrite enqueue_valid_eq. unfold pending, dead; simpl.
  split_and!; [done | done | done | apply NoDup_seq |].
  intros l [Hlo Hhi]%elem_of_seq.
  destruct (lookup_lt_is_Some_2 (valid_records results) (l - length h)) as [r Hr]; [lia|].
  exists r. split; [by eapply list_elem_of_lookup_2|].
  rewrite lookup_app_r by lia. by rewrite list_lookup_fmap, Hr.
Qed.

(** The log of a run begins with one dispatch for each enqueued job, in
    the order of the queue; whoever answered retry is dispatched again
    later. *)
Lemma run_first_pass h w results ds m1 :
  steps (enqueue_valid h (Orchestrator_init w None) results) ds m1 →
  pending m1 = [] →
  ∃ ds1 ds2,
    ds = ds1 ++ ds2
    ∧ d_job <$> ds1 = seq (length h) (length (valid_records results))
    ∧ ∀ l, l ∈ jobs_answered Retry ds1 → l ∈ (d_job <$> ds2).
Proof.
  intros Hsteps Hend.
  destruct (fresh_machine h w results) as (Hq0 & _ & _ & Hnd0 & Hheap0).
  destruct (first_pass (seq (length h) (length (valid_records results)))
              (enqueue_valid h (Orchestrator_init w None) results) [])
    as (ds1 & ma & Hpre & Hjobs & Hqa).
  - by rewrite app_nil_r.
  - apply NoDup_seq.
  - intros l Hl. rewrite <- Hq0 in Hl. destruct (Hheap0 _ Hl) as (r & _ & Hj).
    by exists (new_JobItem r).
  - destruct (steps_prefix _ _ _ _ _ Hsteps Hend Hpre) as (ds2 & -> & Hpost).
    exists ds1, ds2. split_and!; [done..|].
    intros l Hl. eapply steps_all_dispatched; eauto. by rewrite Hqa.
Qed.

(** *** The calls of a client *)

Lemma steps_dispatched_valid m ds m' l :
  steps m ds m' → l ∈ (d_job <$> ds) → (l < length (heap m))%nat.
Proof.
  induction 1 as [m|m d m1 ds m2 Hstep Hsteps IH]; [by intros ?%elem_of_nil|].
  assert (steps m [d] m1) as Hone by (econstructor; [done | constructor]).
  destruct (steps_accounts _ _ _ Hone) as (_ & _ & _ & _ & Hlen & _).
  apply step_Continue in Hstep as (job & rest & j & _ & Hj & Hjob & _).
  rewrite fmap_cons. intros [->|Hl]%elem_of_cons.
  - rewrite Hjob. by eapply lookup_lt_Some.
  - rewrite <- Hlen. auto.
Qed.

Lemma requeue_inv h q job msg h' q' :
  requeue h q job msg = Some (h', q') →
  ∃ j, h !! job = Some j
       ∧ h' = <[job := mkJobItem (record j) (attempts j + 1) (max_attempts j)
                         (error_messages j ++ [msg])]> h.
Proof.
  intros Hre. destruct (h !! job) as [j|] eqn:Hj.
  - exists j. split; [done|]. erewrite requeue_Some in Hre by done. by injection Hre.
  - unfold requeue in Hre. by rewrite Hj in Hre.
Qed.

(** What one call does to the jobs: nothing but what [requeue] does. *)
Lemma call_jobs s c log s1 :
  call process_job s c log s1 →
  (length s.1 ≤ length s1.1)%nat
  ∧ (∀ l, l ∈ log → (l < length s1.1)%nat)
  ∧ (∀ l j, s.1 !! l = Some j →
       ∃ j1, s1.1 !! l = Some j1
             ∧ record j1 = record j ∧ max_attempts j1 = max_attempts j
             ∧ attempts j1 = attempts j + Z.of_nat (count_job l log))
  ∧ (∀ l j1, (length s.1 ≤ l)%nat → s1.1 !! l = Some j1 →
       attempts j1 = Z.of_nat (count_job l log)).
Proof.
  assert (∀ h l j, h !! l = Some j →
            ∃ j1, h !! l = Some j1 ∧ record j1 = record j
                  ∧ max_attempts j1 = max_attempts j
                  ∧ attempts j1 = attempts j + Z.of_nat (count_job l [])) as Hsame.
  { intros h l j Hj. exists j. split_and!; [done..|]. unfold count_job; simpl. lia. }
  assert (∀ h l j, (length h ≤ l)%nat → h !! l = Some j →
            attempts j = Z.of_nat (count_job l [])) as Hnone.
  { intros h l j Hl Hj%lookup_lt_Some. lia. }
  destruct 1 as [h o r h' q' He|h o job q' Hd|h o job msg h' q' Hr|h o|h o
                |h o results m Hm|h o results ds m Hrun]; cbn [fst].
  - injection He as <- <-. split_and!.
    + rewrite length_app. lia.
    + by intros l ?%elem_of_nil.
    + intros l j Hj. exists j. split_and!; [by apply lookup_app_l_Some | done..|].
      unfold count_job; simpl. lia.
    + intros l j1 Hl Hj1. rewrite lookup_app_r in Hj1 by done.
      apply list_lookup_singleton_Some in Hj1 as [_ <-]. done.
  - split_and!; [done | by intros l ?%elem_of_nil | by apply Hsame | by apply Hnone].
  - apply requeue_inv in Hr as (j0 & Hj0 & ->). rewrite length_insert. split_and!.
    + done.
    + intros l ->%list_elem_of_singleton. by eapply lookup_lt_Some.
    + intros l j Hj. rewrite count_job_cons. destruct (decide (l = job)) as [->|Hne].
      * assert (j0 = j) as -> by congruence. eexists. split.
        -- apply list_lookup_insert_eq. by eapply lookup_lt_Some.
        -- cbn. split_and!; [done..|]. unfold count_job; simpl. lia.
      * rewrite list_lookup_insert_ne by done. by apply Hsame.
    + intros l j1 Hl Hj1%lookup_lt_Some. rewrite length_insert in Hj1. lia.
  - split_and!; [done | by intros l ?%elem_of_nil | by apply Hsame | by apply Hnone].
  - split_and!; [done | by intros l ?%elem_of_nil | by apply Hsame | by apply Hnone].
  - subst m. rewrite enqueue_valid_eq. cbn [heap]. split_and!.
    + rewrite length_app. lia.
    + by intros l ?%elem_of_nil.
    + intros l j Hj. exists j. split_and!; [by apply lookup_app_l_Some | done..|].
      unfold count_job; simpl. lia.
    + intros l j1 Hl Hj1. rewrite lookup_app_r in Hj1 by done.
      apply list_lookup_fmap_Some in Hj1 as (r & -> & _). done.
  - apply run_returns_steps in Hrun as (m1 & Hsteps & Hend & ->).
    destruct (steps_accounts _ _ _ Hsteps) as (_ & _ & _ & _ & Hlen & _).
    change (heap (finalize m1)) with (heap m1).
    assert (heap (enqueue_valid h o results)
            = h ++ (new_JobItem <$> valid_records results)) as Hh0
      by by rewrite enqueue_valid_eq.
    split_and!.
    + rewrite Hlen, Hh0, length_app. lia.
    + intros l Hl%jobs_answered_subseteq. rewrite Hlen.
      by eapply steps_dispatched_valid.
    + intros l j Hj.
      assert (heap (enqueue_valid h o results) !! l = Some j) as Hj0
        by (rewrite Hh0; by apply lookup_app_l_Some).
      eexists. split; [by eapply steps_heap|]. done.
    + intros l j1 Hl Hj1.
      destruct (lookup_lt_is_Some_2 (heap (enqueue_valid h o results)) l) as [j0 Hj0].
      { rewrite <- Hlen. by eapply lookup_lt_Some. }
      rewrite (steps_heap _ _ _ _ _ Hsteps Hj0) in Hj1. injection Hj1 as <-.
      rewrite Hh0, lookup_app_r in Hj0 by done.
      apply list_lookup_fmap_Some in Hj0 as (r & -> & _). cbn. lia.
Qed.

(** With jobs already in the deque or in the dead-letter list when [run]
    is called, these are processed and reported with the new ones. *)
Lemma run_accounts_any_queue h (o : Orchestrator W) results ds m :
  run_returns h o results ds m →
  success_count (report m) + Z.of_nat (length (failed_jobs (report m))) =
    Z.of_nat (length (_queue (queue o)) + length (_dead_letter (queue o))
              + length (valid_records results)).
Proof.
  intros (m1 & Hsteps & Hend & ->)%run_returns_steps.
  destruct (steps_accounts _ _ _ Hsteps) as (Hf & Hs & _ & _ & _ & _ & Hp).
  rewrite enqueue_valid_eq in Hf, Hs, Hp. unfold dead at 2, pending at 2 in Hp.
  simpl in Hf, Hs, Hp. rewrite Hend, app_nil_r in Hp.
  apply Permutation_length in Hp. rewrite !length_app, length_seq in Hp.
  unfold finalize, dead_letter; simpl. fold (dead m1).
  rewrite Hf, Hs, length_app. lia.
Qed.

(** [run] always returns. *)
Lemma run_total h w results :
  ∃ ds m, run_returns h (Orchestrator_init w None) results ds m.
Proof.
  destruct (drain_terminates _ (fresh_pending_ok h w results)) as (ds & m1 & Hs & He).
  exists ds, (finalize m1). apply run_returns_steps. eauto.
Qed.

End OrchestratorFacts.

Section OrchestratorClaims.

Context {W : Type} (process_job : W → JobItem → W * answer).

Abbreviation run_returns' := (run_returns process_job).

Implicit Types (m : machine W) (d : dispatch) (ds : list dispatch) (l job : loc)
  (h : list JobItem) (w : W) (results : list ValidationResult).

(** C8: [enqueue_valid] puts one new job in the queue for each result
    with [is_valid] true, in order and with the record of the result,
    and appends the other results to [validation_errors]; every job it
    enqueues holds the record of a valid result.  It leaves the worker
    as it is: the function has no access to [process_job]. *)
Theorem enqueue_valid_only_valid h (o : Orchestrator W) results :
  let m := enqueue_valid h o results in
  heap m = h ++ (new_JobItem <$> valid_records results)
  ∧ pending m = _queue (queue o) ++ seq (length h) (length (valid_records results))
  ∧ dead m = _dead_letter (queue o)
  ∧ validation_errors (report m) = rejected results
  ∧ (∀ result, result ∈ validation_errors (report m) ↔
               result ∈ results ∧ is_valid result = false)
  ∧ worker (orch m) = worker o
  ∧ (∀ i, (i < length (valid_records results))%nat →
       ∃ result,
         result ∈ results ∧ is_valid result = true
         ∧ heap m !! (length h + i)%nat = Some (new_JobItem (result_record result))).
Proof.
  intros m. subst m. rewrite enqueue_valid_eq. unfold pending, dead; simpl.
  split_and!; try done.
  - intros result. unfold rejected. rewrite !list_elem_of_In, List.filter_In.
    by rewrite negb_true_iff.
  - intros i Hi. unfold valid_records in *.
    destruct (lookup_lt_is_Some_2 _ _ Hi) as [r Hr].
    apply list_lookup_fmap_Some in Hr as (result & -> & Hres).
    pose proof (list_elem_of_lookup_2 _ _ _ Hres) as Hin.
    apply list_elem_of_In, List.filter_In in Hin as [Hin Hvalid]. exists result. split_and!; [by apply list_elem_of_In | done |].
    rewrite lookup_app_r by lia. replace (length h + i - length h)%nat with i by lia.
    rewrite list_lookup_fmap, list_lookup_fmap, Hres. done.
Qed.

(** C2: [run] returns, and in the report it returns the successes and
    the failed jobs together are the enqueued jobs, each one exactly
    once; [success_count] counts the successes. *)
Theorem report_accounts_for_every_job h w results :
  (∃ ds m, run_returns' h (Orchestrator_init w None) results ds m)
  ∧ (∀ ds m,
       run_returns' h (Orchestrator_init w None) results ds m →
       let enqueued := seq (length h) (length (valid_records results)) in
       success_count (report m) = Z.of_nat (length (jobs_answered Success ds))
       ∧ success_count (report m) + Z.of_nat (length (failed_jobs (report m)))
           = Z.of_nat (length (valid_records results))
       ∧ jobs_answered Success ds ++ failed_jobs (report m) ≡ₚ enqueued
       ∧ NoDup (jobs_answered Success ds ++ failed_jobs (report m))
       ∧ pending m = []).
Proof.
  split; [apply run_total|].
  intros ds m (m1 & Hsteps & Hend & ->)%run_returns_steps enqueued.
  destruct (steps_accounts _ _ _ _ Hsteps) as (Hf & Hs & _ & _ & _ & _ & Hp).
  rewrite enqueue_valid_eq in Hf, Hs, Hp. unfold dead at 2, pending at 2 in Hp.
  simpl in Hf, Hs, Hp. rewrite Hend, app_nil_r in Hp.
  assert (jobs_answered Success ds ++ failed_jobs (report (finalize m1)) ≡ₚ enqueued)
    as Hperm.
  { unfold finalize, dead_letter; simpl. by rewrite Hf. }
  split_and!.
  - unfold finalize; simpl. lia.
  - apply Permutation_length in Hperm. rewrite length_app in Hperm.
    unfold enqueued in Hperm. rewrite length_seq in Hperm.
    unfold finalize in *; simpl in *. lia.
  - done.
  - rewrite Hperm. apply NoDup_seq.
  - done.
Qed.

(** C3: a job whose first dispatch raises goes to [failed_jobs] as it
    was enqueued, with no attempt and no message; it is not requeued,
    not dead-lettered and not dispatched again; the loop goes on until
    the deque is empty, and by then every enqueued job has been
    dispatched. *)
Theorem raised_job_fails_at_once h w results :
  (∃ ds m, run_returns' h (Orchestrator_init w None) results ds m)
  ∧ (∀ ds m,
       run_returns' h (Orchestrator_init w None) results ds m →
       pending m = []
       ∧ (∀ l, l ∈ seq (length h) (length (valid_records results)) →
               l ∈ (d_job <$> ds))
       ∧ failed_jobs (report m) = jobs_answered Raised ds ++ dead m
       ∧ (∀ pre d post,
            ds = pre ++ d :: post →
            d_job d ∉ (d_job <$> pre) →
            d_answer d = Raised →
            d_job d ∈ failed_jobs (report m)
            ∧ (d_job d ∉ dead m)
            ∧ (d_job d ∉ jobs_answered Retry ds)
            ∧ (d_job d ∉ (d_job <$> post))
            ∧ (∃ j, heap m !! d_job d = Some j
                    ∧ attempts j = 0 ∧ error_messages j = []
                    ∧ record j ∈ valid_records results))).
Proof.
  split; [apply run_total|].
  intros ds m (m1 & Hsteps & Hend & ->)%run_returns_steps.
  destruct (fresh_machine h w results) as (Hq0 & Hd0 & Hr0 & Hnd0 & Hheap0).
  destruct (steps_accounts _ _ _ _ Hsteps) as (Hf & _ & _ & _ & _ & (dl & Hd & Hdl) & _).
  rewrite Hr0 in Hf. rewrite Hd0 in Hd. simpl in Hf, Hd.
  split_and!.
  - done.
  - intros l Hl. eapply steps_all_dispatched; eauto. by rewrite Hq0.
  - unfold finalize, dead_letter; simpl. by rewrite Hf.
  - intros pre d post -> Hfirst Hraised.
    destruct (steps_split _ _ _ _ _ _ Hsteps) as (ma & mb & Hpre & Hstep & Hpost).
    assert (d_job d ∉ (d_job <$> post)) as Hpost_free.
    { intros Hin. apply (steps_dispatched_pending _ _ _ _ _ Hpost) in Hin.
      pose proof (steps_NoDup _ _ _ _ Hpre Hnd0) as Hnd.
      apply step_Continue in Hstep
        as (job & rest & j & Hq & _ & Hjob & _ & _ & _ & _ & Hcase).
      rewrite Hq in Hnd. apply NoDup_cons in Hnd as [Hnotin _].
      destruct Hcase as [(_ & _ & Hq1 & _)|[(Hs & _)|(Hs & _)]];
        [|rewrite Hraised in Hs; discriminate..].
      rewrite Hq1, Hjob in Hin. done. }
    assert (d_job d ∉ jobs_answered Retry (pre ++ d :: post)) as Hretry_free.
    { rewrite jobs_answered_app, jobs_answered_cons, Hraised.
      rewrite bool_decide_eq_false_2 by discriminate.
      intros [Hin|Hin]%elem_of_app; by eapply jobs_answered_notin in Hin. }
    assert (d_job d ∈ pending (enqueue_valid h (Orchestrator_init w None) results))
      as Hin0.
    { apply (steps_dispatched_pending _ _ _ _ _ Hsteps).
      rewrite fmap_app, fmap_cons. apply elem_of_app. right. left. }
    split_and!.
    + unfold finalize, dead_letter; simpl. rewrite Hf. apply elem_of_app. left.
      rewrite jobs_answered_app, jobs_answered_cons, Hraised.
      rewrite bool_decide_eq_true_2 by done. apply elem_of_app. right. left.
    + unfold finalize, dead; simpl. fold (dead m1). rewrite Hd.
      intros Hin. by apply Hretry_free, Hdl.
    + done.
    + done.
    + destruct (Hheap0 _ Hin0) as (r & Hr & Hj).
      exists (new_JobItem r). split_and!; [|done..].
      unfold finalize; simpl. rewrite (steps_heap _ _ _ _ _ _ Hsteps Hj).
      by rewrite count_job_notin, retried_0.
Qed.

(** C1, as the code has it: a job of a batch whose every dispatch
    answers retry is dispatched three times, and is back in the deque
    after two of them; the third retry dead-letters it, and it ends in
    [failed_jobs] with [attempts] 3.  Each of the three retries
    appended a message and added one to [retry_count]: the job has
    three messages, and [retry_count] is 3 when it is the only job. *)
Theorem always_retried_job_is_dead_lettered h w results :
  (∃ ds m, run_returns' h (Orchestrator_init w None) results ds m)
  ∧ (∀ ds m,
       run_returns' h (Orchestrator_init w None) results ds m →
       retry_count (report m) = Z.of_nat (length (jobs_answered Retry ds))
       ∧ (∀ l,
            l ∈ seq (length h) (length (valid_records results)) →
            (∀ d, d ∈ ds → d_job d = l → d_answer d = Retry) →
            dispatched l ds = 3%nat
            ∧ reappended l ds = 2%nat
            ∧ count_job l (jobs_answered Retry ds) = 3%nat
            ∧ l ∈ dead m
            ∧ l ∈ failed_jobs (report m)
            ∧ (∃ r, r ∈ valid_records results
                    ∧ heap m !! l =
                        Some (mkJobItem r 3 3
                                ["worker requested retry"; "worker requested retry";
                                 "worker requested retry"]))
            ∧ (length (valid_records results) = 1%nat → retry_count (report m) = 3))).
Proof.
  split; [apply run_total|].
  intros ds m (m1 & Hsteps & Hend & ->)%run_returns_steps.
  destruct (fresh_machine h w results) as (Hq0 & Hd0 & Hr0 & Hnd0 & Hheap0).
  destruct (steps_accounts _ _ _ _ Hsteps) as (Hf & _ & Hr & _ & _ & _ & Hp).
  rewrite Hr0 in Hf, Hr. rewrite Hd0, Hq0, Hend, app_nil_r in Hp. simpl in Hf, Hr, Hp.
  split; [done|]. intros l Hl Hretry.
  assert (live (enqueue_valid h (Orchestrator_init w None) results)) as Hlive.
  { intros l' Hl'. destruct (Hheap0 _ Hl') as (r & _ & Hj). by exists (new_JobItem r). }
  destruct (steps_dead_exhausted _ _ _ _ Hsteps Hnd0 Hlive) as (dl & Hd & Hdl).
  rewrite Hd0 in Hd. simpl in Hd.
  assert (∀ a, a ≠ Retry → l ∉ jobs_answered a ds) as Hother.
  { intros a Ha (d & Hin & Hjob & Hans)%elem_of_jobs_answered.
    apply Ha. rewrite <- Hans. auto. }
  assert (l ∈ dead m1) as Hdead.
  { rewrite <- Hp in Hl.
    apply elem_of_app in Hl as [Hl|Hl]; [by apply Hother in Hl|].
    apply elem_of_app in Hl as [Hl|Hl]; [by apply Hother in Hl | done]. }
  rewrite <- Hq0 in Hl. destruct (Hheap0 _ Hl) as (r & Hr_in & Hj).
  pose proof (steps_heap _ _ _ _ _ _ Hsteps Hj) as Hj1.
  rewrite Hd in Hdead. destruct (Hdl _ Hdead) as (j1 & Hj1' & Hmax).
  rewrite Hj1 in Hj1'. injection Hj1' as <-. cbn in Hmax.
  assert (count_job l (jobs_answered Retry ds) = 3%nat) as Hcount by lia.
  assert (dispatched l ds = 3%nat) as Hdisp.
  { rewrite dispatched_by_answer, Hcount, !count_job_notin by (apply Hother; discriminate).
    done. }
  split_and!.
  - done.
  - pose proof (dispatched_reappended _ _ _ _ l Hsteps Hend Hnd0) as Hre.
    rewrite bool_decide_eq_true_2 in Hre by done. lia.
  - done.
  - unfold finalize, dead; simpl. fold (dead m1). by rewrite Hd.
  - unfold finalize, dead_letter; simpl. apply elem_of_app. right.
    fold (dead m1). by rewrite Hd.
  - exists r. split; [done|]. unfold finalize; simpl. by rewrite Hj1, Hcount.
  - intros Hone. unfold finalize; simpl. rewrite Hr.
    rewrite <- (count_job_all l (jobs_answered Retry ds)); [by rewrite Hcount|].
    intros x Hx%jobs_answered_subseteq.
    apply (steps_dispatched_pending _ _ _ _ _ Hsteps) in Hx.
    rewrite Hq0, Hone in Hx, Hl. simpl in Hx, Hl.
    apply list_elem_of_singleton in Hx, Hl. congruence.
Qed.

Lemma first_at_first_pass ds1 ds2 i l :
  NoDup (d_job <$> ds1) →
  (d_job <$> ds1) !! i = Some l →
  ∀ i', first_at (ds1 ++ ds2) i' l → i' = i.
Proof.
  intros Hnd Hi i' [Hat Hfirst].
  assert (job_at (ds1 ++ ds2) i l) as Hat_i.
  { unfold job_at. rewrite fmap_app. by apply lookup_app_l_Some. }
  destruct (decide (i < i')%nat) as [Hlt|Hge]; [by apply Hfirst in Hat_i|].
  unfold job_at in Hat. rewrite fmap_app in Hat.
  rewrite lookup_app_l in Hat by (apply lookup_lt_Some in Hi; lia).
  by eapply NoDup_lookup.
Qed.

(** C4: the deque is first in, first out, and a retry goes to its tail.
    When A and B are enqueued in that order, A's first dispatch answers
    retry and B's first dispatch answers success, A is dispatched a
    second time, and B's dispatch comes before that. *)
Theorem retry_goes_behind_pending_jobs h w results :
  (∀ q job rest, _queue q = job :: rest →
     dequeue q = (Some job, mkJobQueue rest (_dead_letter q)))
  ∧ (∀ hp q job j msg,
       hp !! job = Some j → attempts j + 1 < max_attempts j →
       ∃ hp', requeue hp q job msg
              = Some (hp', mkJobQueue (_queue q ++ [job]) (_dead_letter q)))
  ∧ (∃ ds m, run_returns' h (Orchestrator_init w None) results ds m)
  ∧ (∀ ds m,
       run_returns' h (Orchestrator_init w None) results ds m →
       ∀ a b i j ia ib,
         (i < j)%nat →
         pending (enqueue_valid h (Orchestrator_init w None) results) !! i = Some a →
         pending (enqueue_valid h (Orchestrator_init w None) results) !! j = Some b →
         first_at ds ia a → answer_at ds ia Retry →
         first_at ds ib b → answer_at ds ib Success →
         ∃ ia2, next_at ds ia ia2 a ∧ (ia < ib)%nat ∧ (ib < ia2)%nat).
Proof.
  split_and!.
  - intros q job rest Hq. unfold dequeue. by rewrite Hq.
  - intros hp q job j msg Hj Hlt. erewrite requeue_Some by done. cbv zeta.
    unfold is_exhausted; cbn [attempts max_attempts].
    assert ((attempts j + 1 >=? max_attempts j) = false) as ->; [|eauto].
    rewrite Z.geb_leb. apply Z.leb_gt. lia.
  - apply run_total.
  - intros ds m (m1 & Hsteps & Hend & ->)%run_returns_steps a b i j ia ib
      Hij Hi Hj Ha Hans_a Hb _.
    destruct (fresh_machine h w results) as (Hq0 & _).
    destruct (run_first_pass _ _ _ _ _ _ Hsteps Hend) as (ds1 & ds2 & -> & Hjobs & Hagain).
    rewrite Hq0, <- Hjobs in Hi, Hj.
    assert (NoDup (d_job <$> ds1)) as Hnd by (rewrite Hjobs; apply NoDup_seq).
    pose proof (first_at_first_pass _ _ _ _ Hnd Hi _ Ha) as ->.
    pose proof (first_at_first_pass _ _ _ _ Hnd Hj _ Hb) as ->.
    pose proof (lookup_lt_Some _ _ _ Hi) as Hi_lt.
    pose proof (lookup_lt_Some _ _ _ Hj) as Hj_lt.
    rewrite length_fmap in Hi_lt, Hj_lt.
    assert (a ∈ (d_job <$> ds2)) as Hin2.
    { apply Hagain. unfold answer_at in Hans_a. rewrite fmap_app in Hans_a.
      rewrite lookup_app_l in Hans_a by (by rewrite length_fmap).
      apply list_lookup_fmap_Some in Hans_a as (d & Hd_ans & Hd).
      rewrite list_lookup_fmap, Hd in Hi. injection Hi as Hd_job.
      apply list_elem_of_In. unfold jobs_answered. apply in_map_iff. exists d.
      split; [done|]. apply List.filter_In. split.
      - by eapply list_elem_of_In, list_elem_of_lookup_2.
      - by apply bool_decide_eq_true. }
    destruct (list_find_elem_of (λ x, x = a) (d_job <$> ds2) a Hin2 eq_refl)
      as [[k x] Hfind].
    apply list_find_Some in Hfind as (Hk & -> & Hleast).
    exists (length ds1 + k)%nat. split_and!; [|lia..]. split_and!.
    + lia.
    + unfold job_at. rewrite fmap_app, lookup_app_r by (rewrite length_fmap; lia).
      rewrite length_fmap. by replace (length ds1 + k - length ds1)%nat with k by lia.
    + intros k' [Hlo Hhi]. unfold job_at. rewrite fmap_app.
      destruct (decide (k' < length ds1)%nat) as [Hin1|Hout1].
      * rewrite lookup_app_l by (by rewrite length_fmap).
        intros Hk'. pose proof (NoDup_lookup _ _ _ _ Hnd Hi Hk'). lia.
      * rewrite lookup_app_r by (rewrite length_fmap; lia). rewrite length_fmap.
        intros Hk'. eapply (Hleast (k' - length ds1)%nat); [done | lia | done].
Qed.

(** C9: over any sequence of calls on the queue and the orchestrator, a
    job's [attempts] is what it was plus the number of [requeue] calls on
    the job; so it never decreases, a job that [enqueue] created counts
    its [requeue] calls from 0, and nothing else changes it. *)
Theorem attempts_count_requeues s cs log s' :
  calls process_job s cs log s' →
  (∀ l j, s.1 !! l = Some j →
     ∃ j', s'.1 !! l = Some j'
           ∧ attempts j' = attempts j + Z.of_nat (count_job l log)
           ∧ attempts j ≤ attempts j'
           ∧ record j' = record j ∧ max_attempts j' = max_attempts j)
  ∧ (∀ l j', (length s.1 ≤ l)%nat → s'.1 !! l = Some j' →
       attempts j' = Z.of_nat (count_job l log) ∧ 0 ≤ attempts j').
Proof.
  induction 1 as [s|s c log1 s1 cs log2 s2 Hcall Hcalls [IHold IHnew]].
  - split.
    + intros l j Hj. exists j. unfold count_job; simpl. split_and!; [done | lia | lia | done..].
    + intros l j' Hl Hj'%lookup_lt_Some. lia.
  - destruct (call_jobs _ _ _ _ _ Hcall) as (Hlen & Hlog & Hold & Hnew). split.
    + intros l j Hj. destruct (Hold _ _ Hj) as (j1 & Hj1 & Hrec1 & Hmax1 & Hatt1).
      destruct (IHold _ _ Hj1) as (j2 & Hj2 & Hatt2 & _ & Hrec2 & Hmax2).
      exists j2. rewrite count_job_app. split_and!; [done | lia | lia | congruence..].
    + intros l j2 Hl Hj2. rewrite count_job_app.
      destruct (s1.1 !! l) as [j1|] eqn:Hj1.
      * pose proof (Hnew _ _ Hl Hj1) as Hatt1.
        destruct (IHold _ _ Hj1) as (j2' & Hj2' & Hatt2 & _).
        assert (j2' = j2) as -> by congruence. lia.
      * apply lookup_ge_None in Hj1.
        rewrite (count_job_notin l log1).
        -- destruct (IHnew _ _ Hj1 Hj2). split; [done | lia].
        -- intros Hin%Hlog. lia.
Qed.

End OrchestratorClaims.

(** ** The properties on sample inputs *)

Lemma validate_valid_iff_no_errors_witness :
  let r := sample_case "CASE-1" (Some (mkdate 2024 3 5)) (Some "Headache")
             (Some "unsure") ∅ in
  warnings (validate sample_today r) = [msg_seriousness "unsure"]
  ∧ is_valid (validate sample_today r) = true.
Proof.
  intros r.
  destruct (validate_valid_iff_no_errors sample_today r) as [_ H].
  destruct (H "unsure") as (Hw & _ & Hv); [reflexivity | discriminate..|].
  split; [exact Hw|]. rewrite Hv. vm_compute. reflexivity.
Defined.

Lemma onset_date_rule_witness :
  msg_too_early (mkdate 1969 12 31)
    ∈ errors (validate sample_today
                (sample_case "CASE-2" (Some (mkdate 1969 12 31)) (Some "Nausea") None ∅))
  ∧ List.filter onset_rule_error
      (errors (validate sample_today
                 (sample_case "CASE-3" (Some sample_today) (Some "Nausea") None ∅))) = []
  ∧ msg_unparsed "31.12.2020"
      ∈ errors (validate sample_today
                  (sample_case "CASE-4" None (Some "Nausea") None
                     {[ "onset_date" := "31.12.2020" ]})).
Proof.
  split; [|split].
  - destruct (proj1 (onset_date_rule sample_today
                        (sample_case "CASE-2" (Some (mkdate 1969 12 31)) (Some "Nausea")
                           None ∅))
                 (mkdate 1969 12 31) eq_refl) as (Hearly & _).
    apply (proj2 Hearly). unfold date_before, MIN_ONSET_DATE; simpl. lia.
  - destruct (proj1 (onset_date_rule sample_today
                        (sample_case "CASE-3" (Some sample_today) (Some "Nausea") None ∅))
                 sample_today eq_refl) as (_ & _ & _ & Hin).
    apply Hin.
    + unfold date_le, MIN_ONSET_DATE, sample_today; simpl. lia.
    + unfold date_le, sample_today; simpl. lia.
  - apply (proj2 (onset_date_rule sample_today _)).
    + reflexivity.
    + vm_compute. reflexivity.
    + discriminate.
Defined.

Lemma required_fields_accumulate_witness :
  let r := sample_case "CASE-5" None None None ∅ in
  msg_missing "onset_date" ∈ errors (validate sample_today r)
  ∧ msg_missing "reaction_reported_term" ∈ errors (validate sample_today r)
  ∧ occurrences (msg_missing "onset_date") (errors (validate sample_today r)) = 1%nat
  ∧ (2 ≤ length (errors (validate sample_today r)))%nat.
Proof.
  intros r.
  destruct (required_fields_accumulate sample_today r) as (_ & Hcount & Htwo).
  destruct Htwo as (H1 & H2 & _ & Hlen); [reflexivity | reflexivity |].
  split; [exact H1|]. split; [exact H2|]. split; [|exact Hlen].
  rewrite Hcount; [reflexivity|]. vm_compute. do 3 right. left.
Defined.

Lemma unparsed_onset_date_two_errors_witness :
  let payload : gmap string string :=
    {[ "case_id" := "CASE-6"; "onset_date" := "next week" ]} in
  let r := from_dict (λ _ _, None) payload in
  onset_date r = None
  ∧ msg_missing "onset_date" ∈ errors (validate sample_today r)
  ∧ msg_unparsed "next week" ∈ errors (validate sample_today r).
Proof.
  intros payload r.
  destruct (proj2 (unparsed_onset_date_two_errors (λ _ _, None) sample_today)
              payload "next week") as (H1 & H2 & H3 & _).
  - vm_compute. reflexivity.
  - discriminate.
  - reflexivity.
  - split; [exact H1|]. split; [exact H2 | exact H3].
Defined.

Lemma enqueue_valid_only_valid_witness :
  let results := [sample_result "CASE-A"; sample_result ""; sample_result "CASE-B"] in
  let m := enqueue_valid [] (Orchestrator_init tt None) results in
  pending m = [0; 1]%nat
  ∧ validation_errors (report m) = [sample_result ""]
  ∧ ∃ result, result ∈ results ∧ is_valid result = true
              ∧ heap m !! 1%nat = Some (new_JobItem (result_record result)).
Proof.
  intros results m.
  destruct (enqueue_valid_only_valid [] (Orchestrator_init tt None) results)
    as (_ & Hq & _ & Hv & _ & _ & Hnew).
  split; [exact Hq|]. split; [exact Hv|].
  apply (Hnew 1%nat). vm_compute. lia.
Defined.

(** One job succeeds, one raises, one is retried until it is
    dead-lettered. *)
Lemma report_accounts_for_every_job_witness :
  ∃ ds m,
    run_returns scripted [] (Orchestrator_init [Success; Raised; Retry; Retry; Retry] None)
      [sample_result "CASE-A"; sample_result "CASE-B"; sample_result ""; sample_result "CASE-C"]
      ds m
    ∧ success_count (report m) = 1
    ∧ failed_jobs (report m) = [1; 2]%nat
    ∧ success_count (report m) + Z.of_nat (length (failed_jobs (report m))) = 3
    ∧ NoDup (jobs_answered Success ds ++ failed_jobs (report m)).
Proof.
  eexists _, _. split; [exists 10%nat; vm_compute; reflexivity|].
  split; [reflexivity|]. split; [reflexivity|].
  match goal with |- context [report ?m] => set (mach := m) end.
  match goal with |- context [jobs_answered Success ?ds] => set (log := ds) end.
  destruct (proj2 (report_accounts_for_every_job scripted []
                     [Success; Raised; Retry; Retry; Retry]
                     [sample_result "CASE-A"; sample_result "CASE-B"; sample_result "";
                      sample_result "CASE-C"]) log mach)
    as (_ & Hsum & _ & Hnd & _).
  - exists 10%nat. vm_compute. reflexivity.
  - split; [exact Hsum | exact Hnd].
Defined.

(** The first job raises at once; the second is retried once and then
    succeeds. *)
Lemma raised_job_fails_at_once_witness :
  ∃ ds m,
    run_returns scripted [] (Orchestrator_init [Raised; Retry; Success] None)
      [sample_result "CASE-A"; sample_result "CASE-B"] ds m
    ∧ d_job <$> ds = [0; 1; 1]%nat
    ∧ failed_jobs (report m) = [0%nat]
    ∧ (0%nat ∉ dead m)
    ∧ ∃ j, heap m !! 0%nat = Some j ∧ attempts j = 0 ∧ error_messages j = [].
Proof.
  eexists _, _. split; [exists 10%nat; vm_compute; reflexivity|].
  split; [reflexivity|]. split; [reflexivity|].
  match goal with |- context [dead ?m] => set (mach := m) end.
  destruct (proj2 (raised_job_fails_at_once scripted [] [Raised; Retry; Success]
                     [sample_result "CASE-A"; sample_result "CASE-B"])
              [mkDispatch 0%nat Raised [1%nat]; mkDispatch 1%nat Retry [1%nat];
               mkDispatch 1%nat Success []] mach)
    as (_ & _ & _ & Hraised).
  - exists 10%nat. vm_compute. reflexivity.
  - destruct (Hraised [] (mkDispatch 0%nat Raised [1%nat])
                [mkDispatch 1%nat Retry [1%nat]; mkDispatch 1%nat Success []])
      as (_ & Hdead & _ & _ & j & Hj & Hatt & Hmsg & _).
    + reflexivity.
    + apply not_elem_of_nil.
    + reflexivity.
    + split; [exact Hdead|]. exists j. split; [exact Hj|]. split; [exact Hatt | exact Hmsg].
Defined.

(** A batch of three: a record that is submitted, a record without case id
    and a record whose submission always asks for a retry. *)
Example batch_of_three :
  ∃ ds m,
    run_returns (retry_only "CASE-3") [] (Orchestrator_init tt None)
      [sample_result "CASE-1"; sample_result ""; sample_result "CASE-3"] ds m
    ∧ success_count (report m) = 1
    ∧ validation_errors (report m) = [sample_result ""]
    ∧ errors (sample_result "") = [msg_missing "case_id"]
    ∧ failed_jobs (report m) = [1%nat]
    ∧ attempts <$> heap m = [0; 3]
    ∧ retry_count (report m) = 3.
Proof.
  eexists _, _. split; [exists 10%nat; vm_compute; reflexivity|].
  repeat split.
Qed.

(** C1 as stated fails on a single job that is always retried: three
    retries are counted and three messages recorded, not two. *)
Lemma always_retry_counts_three :
  ∃ ds m,
    run_returns (always Retry) [] (Orchestrator_init tt None) [sample_result "CASE-3"] ds m
    ∧ failed_jobs (report m) = [0%nat]
    ∧ retry_count (report m) = 3
    ∧ retry_count (report m) ≠ 2
    ∧ ∃ j, heap m !! 0%nat = Some j
           ∧ attempts j = 3 ∧ max_attempts j = 3
           ∧ length (error_messages j) = 3%nat
           ∧ length (error_messages j) ≠ 2%nat.
Proof.
  eexists _, _. split; [exists 10%nat; vm_compute; reflexivity|].
  split; [reflexivity|]. split; [reflexivity|]. split; [discriminate|].
  eexists. split; [reflexivity|]. split; [reflexivity|]. split; [reflexivity|].
  split; [reflexivity | discriminate].
Defined.

Lemma always_retried_job_is_dead_lettered_witness :
  ∃ ds m,
    run_returns (always Retry) [] (Orchestrator_init tt None) [sample_result "CASE-3"] ds m
    ∧ dispatched 0%nat ds = 3%nat
    ∧ reappended 0%nat ds = 2%nat
    ∧ 0%nat ∈ failed_jobs (report m)
    ∧ retry_count (report m) = 3.
Proof.
  eexists _, _. split; [exists 10%nat; vm_compute; reflexivity|].
  match goal with |- context [report ?m] => set (mach := m) end.
  match goal with |- context [dispatched _ ?ds] => set (log := ds) end.
  destruct (proj2 (always_retried_job_is_dead_lettered (always Retry) [] tt
                     [sample_result "CASE-3"]) log mach) as (_ & Hjob).
  - exists 10%nat. vm_compute. reflexivity.
  - destruct (Hjob 0%nat) as (Hd & Hre & _ & _ & Hf & _ & Hcount).
    + vm_compute. left.
    + intros d Hd _. vm_compute in Hd.
      repeat (apply elem_of_cons in Hd as [->|Hd]; [reflexivity|]).
      by apply elem_of_nil in Hd.
    + split; [exact Hd|]. split; [exact Hre|]. split; [exact Hf|].
      apply Hcount. reflexivity.
Defined.

(** A is retried once, B succeeds meanwhile. *)
Lemma retry_goes_behind_pending_jobs_witness :
  ∃ ds m,
    run_returns scripted [] (Orchestrator_init [Retry; Success; Success] None)
      [sample_result "CASE-A"; sample_result "CASE-B"] ds m
    ∧ d_job <$> ds = [0; 1; 0]%nat
    ∧ ∃ ia2, next_at ds 0 ia2 0%nat ∧ (1 < ia2)%nat.
Proof.
  eexists _, _. split; [exists 10%nat; vm_compute; reflexivity|].
  split; [reflexivity|].
  match goal with |- context [next_at ?ds] => set (log := ds) end.
  destruct (proj2 (proj2 (proj2
              (retry_goes_behind_pending_jobs scripted [] [Retry; Success; Success]
                 [sample_result "CASE-A"; sample_result "CASE-B"])))
              log (mkMachine
                     [mkJobItem (sample_record "CASE-A") 1 3 ["worker requested retry"];
                      new_JobItem (sample_record "CASE-B")]
                     (mkOrchestrator [] JobQueue_init)
                     (mkReport 2 1 [] []))
              ltac:(exists 10%nat; vm_compute; reflexivity)
              0%nat 1%nat 0%nat 1%nat 0%nat 1%nat) as (ia2 & Hnext & _ & Hlt).
  - lia.
  - reflexivity.
  - reflexivity.
  - split; [reflexivity | intros k Hk; lia].
  - reflexivity.
  - split; [reflexivity|]. intros k Hk Hat.
    destruct k as [|k]; [vm_compute in Hat; discriminate | lia].
  - reflexivity.
  - exists ia2. split; [exact Hnext | exact Hlt].
Defined.

(** A job is enqueued, taken and requeued by hand, and then retried by
    [run] until it is dead-lettered: three [requeue] calls, [attempts] 3. *)
Lemma attempts_count_requeues_witness :
  ∃ log s',
    calls (always Retry) ([], Orchestrator_init tt None)
      [Enqueue (sample_record "CASE-A"); Dequeue; Requeue 0%nat "flaky"; Len;
       Run [sample_result "CASE-B"]] log s'
    ∧ count_job 0%nat log = 3%nat
    ∧ ∃ j, s'.1 !! 0%nat = Some j ∧ attempts j = 3.
Proof.
  eexists _, _.
  match goal with |- ?C ∧ _ => assert C as Hcalls end.
  { eapply calls_cons; [eapply call_enqueue; reflexivity|].
    eapply calls_cons; [eapply call_dequeue; reflexivity|].
    eapply calls_cons; [eapply call_requeue; reflexivity|].
    eapply calls_cons; [eapply call_len|].
    eapply calls_cons; [eapply call_run; exists 10%nat; vm_compute; reflexivity|].
    apply calls_nil. }
  split; [exact Hcalls|]. split; [reflexivity|].
  eexists. split; [reflexivity|].
  match goal with |- attempts ?j = _ =>
    destruct (proj2 (attempts_count_requeues _ _ _ _ _ Hcalls) 0%nat j (le_n 0) eq_refl)
      as [Hatt _]
  end.
  rewrite Hatt. reflexivity.
Defined.

(** * More of the code *)

(** ** The validator: when a record is valid *)

Section ValidatorMore.

Implicit Types (r : CaseRecord) (errs xs : list string) (today d : date).

Lemma truthy_ne s : PyStr.truthy s = true ↔ s ≠ "".
Proof. destruct s; simpl; split; congruence. Qed.








End ValidatorMore.

(** ** models.py: cleaning and parsing *)

Section ModelsMore.

Lemma lstrip_head s :
  PyStr.lstrip s = ""
  ∨ ∃ c t, PyStr.lstrip s = String c t ∧ PyStr.is_space c = false.
Proof.
  induction s as [|c s IH]; simpl; [by left|].
  destruct (PyStr.is_space c) eqn:Hc; [done|]. right. eauto.
Qed.

Lemma rstrip_head c t :
  PyStr.is_space c = false → ∃ t', PyStr.rstrip (String c t) = String c t'.
Proof. intros Hc. simpl. rewrite Hc. destruct (PyStr.rstrip t); eauto. Qed.

Lemma rstrip_idem s : PyStr.rstrip (PyStr.rstrip s) = PyStr.rstrip s.
Proof.
  induction s as [|c s IH]; [done|]. simpl.
  destruct (PyStr.rstrip s) as [|a u] eqn:Hu.
  - destruct (PyStr.is_space c) eqn:Hc; [done|]. simpl. by rewrite Hc.
  - change (PyStr.rstrip (String c (String a u)))
      with (match PyStr.rstrip (String a u) with
            | EmptyString =>
                if PyStr.is_space c then EmptyString else String c EmptyString
            | t => String c t
            end).
    by rewrite IH.
Qed.

Lemma strip_head s :
  PyStr.strip s = ""
  ∨ ∃ c t, PyStr.strip s = String c t ∧ PyStr.is_space c = false.
Proof.
  unfold PyStr.strip. destruct (lstrip_head s) as [->|(c & t & -> & Hc)]; [by left|].
  right. destruct (rstrip_head c t Hc) as [t' ->]. eauto.
Qed.

Lemma strip_idem s : PyStr.strip (PyStr.strip s) = PyStr.strip s.
Proof.
  destruct (strip_head s) as [->|(c & t & Hs & Hc)]; [done|].
  unfold PyStr.strip at 1. rewrite Hs. cbn [PyStr.lstrip]. rewrite Hc, <- Hs.
  unfold PyStr.strip. apply rstrip_idem.
Qed.


Section Parsing.

Variable strptime : string → string → option date.

Lemma try_formats_spec value formats d :
  try_formats strptime value formats = Some d ↔
    ∃ i fmt, formats !! i = Some fmt ∧ strptime value fmt = Some d
             ∧ ∀ k fmt', (k < i)%nat → formats !! k = Some fmt' →
                         strptime value fmt' = None.
Proof.
  induction formats as [|fmt formats IH]; simpl.
  - split; [done|]. by intros (i & f & ? & _).
  - destruct (strptime value fmt) as [d0|] eqn:Hfmt.
    + split.
      * intros [= <-]. exists 0%nat, fmt. split_and!; [done | done | lia].
      * intros ([|i] & f & Hi & Hf & Hbefore).
        -- injection Hi as <-. congruence.
        -- specialize (Hbefore 0%nat fmt ltac:(lia) eq_refl). congruence.
    + rewrite IH. split.
      * intros (i & f & Hi & Hf & Hbefore). exists (S i), f. split_and!; [done..|].
        intros [|k] f' Hk Hf'; [by injection Hf' as <- | eapply Hbefore; [|done]; lia].
      * intros ([|i] & f & Hi & Hf & Hbefore).
        -- injection Hi as <-. congruence.
        -- exists i, f. split_and!; [done..|].
           intros k f' Hk Hf'. apply (Hbefore (S k) f'); [lia | done].
Qed.

(** X3: [_parse_date] gives the date of the first of its four formats, in
    the order YYYY-MM-DD, YYYY/MM/DD, DD-MM-YYYY, MM/DD/YYYY, that parses
    the value, and [None] exactly when none of them does. *)
Theorem parse_date_first_format value :
  let formats := ["%Y-%m-%d"; "%Y/%m/%d"; "%d-%m-%Y"; "%m/%d/%Y"] in
  (∀ d, _parse_date strptime value = Some d ↔
     ∃ i fmt, formats !! i = Some fmt ∧ strptime value fmt = Some d
              ∧ ∀ k fmt', (k < i)%nat → formats !! k = Some fmt' →
                          strptime value fmt' = None)
  ∧ (_parse_date strptime value = None ↔
     ∀ fmt, fmt ∈ formats → strptime value fmt = None).
Proof.
  intros formats. split; [intros d; apply try_formats_spec|].
  unfold _parse_date. fold formats. clearbody formats.
  induction formats as [|fmt fs IH]; simpl.
  - split; [by intros _ ? ?%elem_of_nil | done].
  - destruct (strptime value fmt) as [d0|] eqn:Hfmt.
    + split; [done|]. intros H. rewrite H in Hfmt by left. done.
    + rewrite IH. split.
      * intros H f [->|Hf]%elem_of_cons; auto.
      * intros H f Hf. apply H. by right.
Qed.

(** X4: [from_dict] keeps the payload as [raw_payload]; a payload with no
    case id, or a case id of white space only, gives a record with an
    empty [case_id], which the validator rejects with exactly one
    missing-case-id error. *)
Theorem from_dict_without_case_id today payload :
  raw_payload (from_dict strptime payload) = payload
  ∧ ((payload !! "case_id" = None
      ∨ ∃ v, payload !! "case_id" = Some v ∧ PyStr.strip v = "") →
     let r := from_dict strptime payload in
     case_id r = ""
     ∧ is_valid (validate today r) = false
     ∧ occurrences (msg_missing "case_id") (errors (validate today r)) = 1%nat).
Proof.
  split; [done|]. intros Hid r.
  assert (case_id r = "") as Hcase.
  { unfold r, from_dict; cbn [case_id]. destruct Hid as [->|(v & -> & Hv)]; done. }
  assert (occurrences (msg_missing "case_id") (errors (validate today r)) = 1%nat) as Hocc.
  { rewrite missing_occurrences by (unfold REQUIRED_FIELDS; left).
    change (getattr r "case_id") with (VStr (case_id r)). by rewrite Hcase. }
  split_and!; [done | | done].
  rewrite validate_is_valid. destruct (errors (validate today r)); [done|done].
Qed.

End Parsing.

End ModelsMore.

(** ** The orchestrator: order, bounds and reuse *)

Section OrchestratorMore.

Context {W : Type} (process_job : W → JobItem → W * answer).

Implicit Types (m : machine W) (d : dispatch) (ds : list dispatch) (l job : loc)
  (h : list JobItem) (w : W) (results : list ValidationResult).

Lemma count_job_elem l (ls : list loc) : l ∈ ls → (1 ≤ count_job l ls)%nat.
Proof.
  induction ls as [|x ls IH]; [by intros ?%elem_of_nil|].
  rewrite count_job_cons. intros [->|Hl]%elem_of_cons.
  - rewrite decide_True by done. lia.
  - destruct (decide (l = x)); [lia | auto].
Qed.

Lemma count_job_NoDup l (ls : list loc) : NoDup ls → (count_job l ls ≤ 1)%nat.
Proof.
  induction 1 as [|x ls Hx Hnd IH]; [unfold count_job; simpl; lia|].
  rewrite count_job_cons.
  destruct (decide (l = x)) as [->|]; [|done]. rewrite count_job_notin by done. lia.
Qed.

Lemma length_by_answer ds :
  length ds =
    (length (jobs_answered Success ds) + length (jobs_answered Raised ds)
     + length (jobs_answered Retry ds))%nat.
Proof.
  induction ds as [|d ds IH]; [done|]. rewrite !jobs_answered_cons. cbn [length].
  destruct (d_answer d) as [[]|]; simpl; lia.
Qed.

(** A list of jobs among [enq] in which each job occurs at most [k] times. *)
Lemma length_le_count (k : nat) (enq ls : list loc) :
  NoDup enq →
  (∀ x, x ∈ ls → x ∈ enq) →
  (∀ l, l ∈ enq → (count_job l ls ≤ k)%nat) →
  (length ls ≤ k * length enq)%nat.
Proof.
  intros Hnd. revert ls. induction Hnd as [|e enq He Hnd IH]; intros ls Hin Hcount.
  - destruct ls as [|x ls]; [simpl; lia|]. specialize (Hin x ltac:(left)).
    by apply elem_of_nil in Hin.
  - set (others := List.filter (λ x, negb (Nat.eqb e x)) ls).
    assert (length ls = (count_job e ls + length others)%nat) as Hsplit.
    { unfold count_job, others. clear. induction ls as [|x ls IH]; [done|]. simpl.
      destruct (Nat.eqb e x); simpl; lia. }
    assert (∀ l, l ≠ e → count_job l others = count_job l ls) as Hsame.
    { intros l Hl. unfold others. clear -Hl. induction ls as [|x ls IH]; [done|]. simpl.
      destruct (Nat.eqb_spec e x) as [<-|Hne]; simpl.
      - rewrite count_job_cons, decide_False by done. done.
      - rewrite !count_job_cons, IH. done. }
    assert (length others ≤ k * length enq)%nat as Hothers.
    { apply IH.
      - intros x [Hx Hne]%list_elem_of_In%List.filter_In.
        apply list_elem_of_In, Hin in Hx. apply negb_true_iff, Nat.eqb_neq in Hne.
        apply elem_of_cons in Hx as [->|Hx]; done.
      - intros l Hl. rewrite Hsame by (intros ->; done). apply Hcount. by right. }
    specialize (Hcount e ltac:(left)). cbn [length]. lia.
Qed.

Lemma drain_more fuel fuel' m ds m' :
  drain process_job fuel m = Some (ds, m') → (fuel ≤ fuel')%nat →
  drain process_job fuel' m = Some (ds, m').
Proof.
  revert fuel' m ds m'. induction fuel as [|fuel IH]; intros fuel' m ds m'; [done|].
  destruct fuel' as [|fuel']; [lia|]. rewrite !drain_S.
  destruct (step process_job m) as [|d m1|]; [done| |done].
  destruct (drain process_job fuel m1) as [[ds1 m2]|] eqn:Hd; [|done].
  intros Heq Hle. by rewrite (IH fuel' _ _ _ Hd) by lia.
Qed.

(** A job of the deque ends below its [max_attempts], or at it and in the
    dead-letter list. *)
Lemma steps_final_attempts m ds m' l :
  steps process_job m ds m' → NoDup (pending m) → live m → l ∈ pending m →
  ∃ j', heap m' !! l = Some j'
        ∧ (attempts j' < max_attempts j'
           ∨ (attempts j' = max_attempts j' ∧ l ∈ dead m')).
Proof.
  induction 1 as [m|m d m1 ds m2 Hstep Hsteps IH]; intros Hnd Hlive Hl.
  - destruct (Hlive l Hl) as (j & Hj & Hlt). eauto.
  - pose proof (step_NoDup _ _ _ _ Hstep Hnd) as Hnd1.
    pose proof (step_live _ _ _ _ Hstep Hnd Hlive) as Hlive1.
    destruct (steps_accounts _ _ _ _ Hsteps) as (_ & _ & _ & _ & _ & (dl & Hd & _) & _).
    pose proof (step_Continue _ _ _ _ Hstep)
      as (job & rest & j & Hq & Hj & _ & _ & _ & _ & _ & Hcase).
    destruct (decide (l = job)) as [->|Hne].
    + destruct (Hlive job Hl) as (j0 & Hj0 & Hlt).
      assert (j0 = j) as -> by congruence.
      rewrite Hq in Hnd. apply NoDup_cons in Hnd as [Hnotin _].
      destruct Hcase as [(_ & Hh1 & Hq1 & _)|[(_ & Hh1 & Hq1 & _)
                        |(_ & Hh1 & _ & _ & _ & [(Hex & Hq1 & Hd1)|(_ & Hq1 & _)])]].
      * exists j. rewrite (steps_untouched _ _ _ _ _ Hsteps) by by rewrite Hq1.
        rewrite Hh1. auto.
      * exists j. rewrite (steps_untouched _ _ _ _ _ Hsteps) by by rewrite Hq1.
        rewrite Hh1. auto.
      * exists (retried 1 j). rewrite (steps_untouched _ _ _ _ _ Hsteps) by by rewrite Hq1.
        rewrite Hh1. split; [apply list_lookup_insert_eq; by eapply lookup_lt_Some|].
        right. split.
        -- unfold is_exhausted in Hex. rewrite Z.geb_leb in Hex. apply Z.leb_le in Hex.
           unfold retried in *; simpl in *. lia.
        -- rewrite Hd, Hd1, !elem_of_app, list_elem_of_singleton. auto.
      * apply IH; [done | done |]. rewrite Hq1, elem_of_app, list_elem_of_singleton. auto.
    + apply IH; [done | done |].
      apply (step_pending_rest _ _ _ _ _ _ Hq Hstep); [done|].
      rewrite Hq in Hl. by apply elem_of_cons in Hl as [?|?].
Qed.

(** X5: the worker gets the valid records in the order of the input: the
    first dispatches of a run are the enqueued jobs, one each and in
    order, and job number [i] holds the [i]-th valid record to the end. *)
Theorem first_dispatches_in_input_order h w results ds m :
  run_returns process_job h (Orchestrator_init w None) results ds m →
  take (length (valid_records results)) (d_job <$> ds)
    = seq (length h) (length (valid_records results))
  ∧ (∀ i r, valid_records results !! i = Some r →
       ∃ j, heap m !! (length h + i)%nat = Some j ∧ record j = r).
Proof.
  intros (m1 & Hsteps & Hend & ->)%run_returns_steps. split.
  - destruct (run_first_pass _ _ _ _ _ _ Hsteps Hend) as (ds1 & ds2 & -> & Hjobs & _).
    assert (length (valid_records results) = length (d_job <$> ds1)) as Hn
      by (by rewrite Hjobs, length_seq).
    rewrite fmap_app. rewrite <- Hjobs. rewrite Hn. apply take_app_length.
  - intros i r Hr. change (heap (finalize m1)) with (heap m1).
    assert (heap (enqueue_valid h (Orchestrator_init w None) results)
              !! (length h + i)%nat = Some (new_JobItem r)) as Hj.
    { rewrite enqueue_valid_eq. cbn [heap]. rewrite lookup_app_r by lia.
      replace (length h + i - length h)%nat with i by lia.
      by rewrite list_lookup_fmap, Hr. }
    eexists. split; [by eapply steps_heap|]. done.
Qed.

(** X6: the worker is called at least once and at most three times for
    each enqueued job, and for no other job: a run of [n] valid records
    makes at most [3 * n] calls, and [3 * n + 1] turns of the loop are
    enough for it to return. *)
Theorem worker_calls_bounded h w results ds m :
  run_returns process_job h (Orchestrator_init w None) results ds m →
  let n := length (valid_records results) in
  (∀ d, d ∈ ds → d_job d ∈ seq (length h) n)
  ∧ (∀ l, l ∈ seq (length h) n → (1 ≤ dispatched l ds ≤ 3)%nat)
  ∧ (length ds ≤ 3 * n)%nat
  ∧ retry_count (report m) ≤ 3 * Z.of_nat n
  ∧ run process_job (3 * n + 1) h (Orchestrator_init w None) results = Some (ds, m).
Proof.
  intros Hrun n. subst n. pose proof Hrun as (m1 & Hsteps & Hend & ->)%run_returns_steps.
  destruct (fresh_machine h w results) as (Hq0 & Hd0 & Hr0 & Hnd0 & Hheap0).
  destruct (steps_accounts _ _ _ _ Hsteps) as (_ & _ & Hr & _ & _ & _ & Hp).
  rewrite Hr0 in Hr. rewrite Hd0, Hq0, Hend, app_nil_r in Hp. simpl in Hr, Hp.
  assert (live (enqueue_valid h (Orchestrator_init w None) results)) as Hlive.
  { intros l' Hl'. destruct (Hheap0 _ Hl') as (r & _ & Hj). by exists (new_JobItem r). }
  assert (∀ d, d ∈ ds → d_job d ∈ seq (length h) (length (valid_records results)))
    as Hjobs.
  { intros d Hd. rewrite <- Hq0. apply (steps_dispatched_pending _ _ _ _ _ Hsteps).
    by apply list_elem_of_fmap_2. }
  assert (∀ l, l ∈ seq (length h) (length (valid_records results)) →
            (1 ≤ dispatched l ds ≤ 3)%nat) as Hbound.
  { intros l Hl. rewrite <- Hq0 in Hl. split.
    - apply count_job_elem. by eapply steps_all_dispatched.
    - destruct (steps_final_attempts _ _ _ l Hsteps Hnd0 Hlive Hl) as (j' & Hj' & Hatt).
      destruct (Hheap0 _ Hl) as (r & _ & Hj).
      rewrite (steps_heap _ _ _ _ _ _ Hsteps Hj) in Hj'. injection Hj' as <-.
      cbn in Hatt.
      assert (NoDup (jobs_answered Success ds ++ jobs_answered Raised ds ++ dead m1))
        as Hnd by (rewrite Hp; apply NoDup_seq).
      pose proof (count_job_NoDup l _ Hnd) as Hone. rewrite !count_job_app in Hone.
      rewrite dispatched_by_answer.
      destruct Hatt as [Hlt|[Heq Hdead%count_job_elem]]; lia. }
  assert (length ds ≤ 3 * length (valid_records results))%nat as Hlen.
  { rewrite <- (length_fmap d_job).
    rewrite <- (length_seq (length (valid_records results)) (length h)) at 1.
    apply length_le_count; [apply NoDup_seq | |].
    - intros x (d & -> & Hd)%list_elem_of_fmap. auto.
    - intros l Hl. apply Hbound in Hl. unfold dispatched in Hl. lia. }
  split_and!; [done | done | done | |].
  - change (retry_count (report (finalize m1))) with (retry_count (report m1)).
    rewrite Hr. pose proof (length_by_answer ds). lia.
  - rewrite run_drain.
    rewrite (drain_more (S (length ds)) (3 * length (valid_records results) + 1)
               _ ds m1); [done | | lia].
    by apply steps_drain.
Qed.

(** X7: [total_attempted] counts a dead-lettered job twice, by its last
    retry and as a failed job: after a run it is the number of calls of
    the worker plus the number of dead letters. *)
Theorem total_attempted_counts h w results ds m :
  run_returns process_job h (Orchestrator_init w None) results ds m →
  total_attempted (report m) = Z.of_nat (length ds + length (dead m)).
Proof.
  intros (m1 & Hsteps & Hend & ->)%run_returns_steps.
  destruct (fresh_machine h w results) as (_ & _ & Hr0 & _).
  destruct (steps_accounts _ _ _ _ Hsteps) as (Hf & Hs & Hr & _).
  rewrite Hr0 in Hf, Hs, Hr. simpl in Hf, Hs, Hr.
  unfold total_attempted, finalize, dead_letter, dead; simpl. fold (dead m1).
  rewrite Hf, Hs, Hr, length_app, (length_by_answer ds). lia.
Qed.

(** X8: when no result is valid, an empty input included, [run] does not
    call the worker: it returns at once with the input as
    [validation_errors], empty counters, and the heap and the worker as
    they were. *)
Theorem run_without_valid_results h w results ds m :
  (∀ result, result ∈ results → is_valid result = false) →
  run_returns process_job h (Orchestrator_init w None) results ds m →
  ds = []
  ∧ report m = mkReport 0 0 [] results
  ∧ heap m = h
  ∧ orch m = Orchestrator_init w None.
Proof.
  intros Hnone (m1 & Hsteps & Hend & ->)%run_returns_steps.
  assert (valid_records results = [] ∧ rejected results = results) as [Hvalid Hrej].
  { unfold valid_records, rejected. clear -Hnone.
    induction results as [|result results IH]; [done|]. simpl.
    rewrite (Hnone result) by left. simpl.
    destruct IH as [-> ->]; [intros; apply Hnone; by right | done]. }
  rewrite enqueue_valid_eq, Hvalid, Hrej in Hsteps. simpl in Hsteps.
  rewrite app_nil_r in Hsteps.
  inversion Hsteps as [|? ? ? ? ? Hstep]; subst.
  - done.
  - by apply step_Continue in Hstep as (job & rest & j & Hq & _).
Qed.

(** X9: [run] on an orchestrator that was used before, with jobs left in
    its deque and dead letters of earlier runs: when the deque refers to
    jobs of the heap, [run] returns; the old jobs are processed with the
    new ones, and the old dead letters are reported again in
    [failed_jobs]. *)
Theorem run_on_used_orchestrator h (o : Orchestrator W) results :
  (∀ l, l ∈ _queue (queue o) → (l < length h)%nat) →
  (∃ ds m, run_returns process_job h o results ds m)
  ∧ (∀ ds m,
       run_returns process_job h o results ds m →
       success_count (report m) + Z.of_nat (length (failed_jobs (report m))) =
         Z.of_nat (length (_queue (queue o)) + length (_dead_letter (queue o))
                   + length (valid_records results))
       ∧ ∃ dl, failed_jobs (report m) =
                 jobs_answered Raised ds ++ _dead_letter (queue o) ++ dl).
Proof.
  intros Hrefs. split.
  - destruct (drain_terminates process_job (enqueue_valid h o results))
      as (ds & m1 & Hs & He).
    + rewrite enqueue_valid_eq. intros l. unfold pending; simpl.
      intros [Hl|Hl%elem_of_seq]%elem_of_app; apply lookup_lt_is_Some;
        rewrite length_app, length_fmap; [apply Hrefs in Hl|]; lia.
    + exists ds, (finalize m1). apply run_returns_steps. eauto.
  - intros ds m Hrun. split; [by eapply run_accounts_any_queue|].
    apply run_returns_steps in Hrun as (m1 & Hsteps & Hend & ->).
    destruct (steps_accounts _ _ _ _ Hsteps) as (Hf & _ & _ & _ & _ & (dl & Hd & _) & _).
    rewrite enqueue_valid_eq in Hf, Hd. unfold dead at 2 in Hd. simpl in Hf, Hd.
    exists dl. unfold finalize, dead_letter; simpl. fold (dead m1). by rewrite Hf, Hd.
Qed.

(** X10: nothing takes a job out of the dead-letter list: over any
    sequence of calls on the queue and the orchestrator the list only
    grows at its end. *)
Theorem dead_letters_are_kept s cs log s' :
  calls process_job s cs log s' →
  _dead_letter (queue s.2) `prefix_of` _dead_letter (queue s'.2).
Proof.
  induction 1 as [s|s c log1 s1 cs log2 s2 Hcall Hcalls IH]; [done|].
  etrans; [|exact IH]. clear IH Hcalls.
  destruct Hcall as [h o r h' q' He|h o job q' Hd|h o job msg h' q' Hr|h o|h o
                    |h o results m Hm|h o results ds m Hrun]; cbn [snd queue].
  - by injection He as <- <-.
  - unfold dequeue in Hd. destruct (_queue (queue o)); by injection Hd as <- <-.
  - destruct (requeue_inv _ _ _ _ _ _ Hr) as (j & Hj & _).
    erewrite requeue_Some in Hr by done. cbv zeta in Hr. injection Hr as _ <-.
    destruct (is_exhausted _); [by apply prefix_app_r | done].
  - done.
  - done.
  - subst m. by rewrite enqueue_valid_eq.
  - apply run_returns_steps in Hrun as (m1 & Hsteps & Hend & ->).
    destruct (steps_accounts _ _ _ _ Hsteps) as (_ & _ & _ & _ & _ & (dl & Hd & _) & _).
    rewrite enqueue_valid_eq in Hd. unfold dead in Hd. simpl in Hd.
    change (_dead_letter (queue (orch (finalize m1))))
      with (_dead_letter (queue (orch m1))).
    rewrite Hd. by apply prefix_app_r.
Qed.

End OrchestratorMore.

(** ** observability/reporting.py: the details of the failed jobs *)

Section ReportingMore.

Implicit Types (jobs : list JobItem) (id : string).

Lemma failed_jobs_to_dict_snoc jobs job :
  failed_jobs_to_dict (jobs ++ [job]) =
    <[case_id (record job) := job_details job]> (failed_jobs_to_dict jobs).
Proof. unfold failed_jobs_to_dict. by rewrite foldl_app. Qed.

Lemma failed_jobs_to_dict_lookup jobs id :
  failed_jobs_to_dict jobs !! id =
    job_details <$> last (List.filter (λ job, String.eqb (case_id (record job)) id) jobs).
Proof.
  induction jobs as [|job jobs IH] using rev_ind; [done|].
  rewrite failed_jobs_to_dict_snoc, List.filter_app. cbn [List.filter].
  destruct (String.eqb_spec (case_id (record job)) id) as [->|Hne].
  - by rewrite lookup_insert_eq, last_snoc.
  - by rewrite lookup_insert_ne, app_nil_r.
Qed.

Lemma failed_jobs_to_dict_is_Some jobs id :
  is_Some (failed_jobs_to_dict jobs !! id) ↔ id ∈ failed_case_ids jobs.
Proof.
  unfold failed_case_ids.
  induction jobs as [|job jobs IH] using rev_ind.
  - split; [by intros [? ?] | by intros ?%elem_of_nil].
  - rewrite failed_jobs_to_dict_snoc, map_app, elem_of_app. cbn [map].
    rewrite list_elem_of_singleton, <- IH.
    destruct (decide (case_id (record job) = id)) as [->|Hne].
    + rewrite lookup_insert_eq. split; [auto | eauto].
    + rewrite lookup_insert_ne by done. split; [auto | intros [?|?]; [done | congruence]].
Qed.

(** X11: [failed_jobs_to_dict] keeps one entry for each case id: the
    attempts and messages of the last failed job with that id.  It has as
    many entries as there are failed jobs exactly when their case ids are
    all different; the list of [report_to_dict] keeps every job. *)
Theorem failed_job_details_last_wins jobs :
  (∀ id, failed_jobs_to_dict jobs !! id =
           job_details <$>
             last (List.filter (λ job, String.eqb (case_id (record job)) id) jobs))
  ∧ (size (failed_jobs_to_dict jobs) ≤ length jobs)%nat
  ∧ (size (failed_jobs_to_dict jobs) = length jobs ↔ NoDup (failed_case_ids jobs))
  ∧ length (failed_case_ids jobs) = length jobs.
Proof.
  split; [intros id; apply failed_jobs_to_dict_lookup|].
  assert ((size (failed_jobs_to_dict jobs) ≤ length jobs)%nat
          ∧ (size (failed_jobs_to_dict jobs) = length jobs ↔ NoDup (failed_case_ids jobs)))
    as [Hle Hiff].
  { induction jobs as [|job jobs [IHle IHiff]] using rev_ind.
    - split; [done|]. split; [intros _; constructor | done].
    - rewrite failed_jobs_to_dict_snoc, length_app. cbn [length].
      unfold failed_case_ids in *. rewrite map_app. cbn [map].
      rewrite NoDup_app, <- IHiff.
      pose proof (failed_jobs_to_dict_is_Some jobs (case_id (record job))) as Hin.
      unfold failed_case_ids in Hin.
      destruct (failed_jobs_to_dict jobs !! case_id (record job)) as [x|] eqn:Hx.
      + rewrite map_size_insert_Some by done. split; [lia|]. split; [lia|].
        intros (_ & Hdisj & _). exfalso.
        apply (Hdisj (case_id (record job))); [apply Hin; eauto | left].
      + rewrite map_size_insert_None by done. split; [lia|]. split.
        * intros Hsize. split_and!; [lia | | apply NoDup_singleton].
          intros id Hid ->%list_elem_of_singleton. apply Hin in Hid as [? ?]. congruence.
        * intros (Hsize & _). lia. }
  split_and!; [done | done |]. unfold failed_case_ids. by rewrite length_map.
Qed.

End ReportingMore.

(** ** ingestion/normalizer.py *)

Section NormalizerMore.

Implicit Types (N : RecordNormalizer) (row d : gmap string string) (key value : string).

Lemma setdefault_subseteq key value d d' : d ⊆ d' → d ⊆ setdefault key value d'.
Proof.
  intros Hsub. unfold setdefault. destruct (d' !! key) eqn:Hk; [done|].
  etrans; [exact Hsub|]. by apply insert_subseteq.
Qed.

Lemma set_if_subseteq key o d d' : d ⊆ d' → d ⊆ set_if key o d'.
Proof.
  intros Hsub. unfold set_if. destruct o as [v|]; [|done].
  destruct (PyStr.truthy v); [by apply setdefault_subseteq | done].
Qed.

Lemma setdefault_lookup_ne key value d k : key ≠ k → setdefault key value d !! k = d !! k.
Proof.
  intros Hne. unfold setdefault. destruct (d !! key); [done|]. by apply lookup_insert_ne.
Qed.

Lemma set_if_lookup_ne key o d k : key ≠ k → set_if key o d !! k = d !! k.
Proof.
  intros Hne. unfold set_if. destruct o as [v|]; [|done].
  destruct (PyStr.truthy v); [by apply setdefault_lookup_ne | done].
Qed.

Lemma setdefault_lookup key value d :
  setdefault key value d !! key = Some (default value (d !! key)).
Proof.
  unfold setdefault. destruct (d !! key) eqn:Hk; [done|]. by rewrite lookup_insert_eq.
Qed.

Lemma first_alias_stripped row aliases t :
  first_alias row aliases = Some t → PyStr.strip t = t.
Proof.
  induction aliases as [|alias aliases IH]; [done|]. simpl.
  destruct (row !! alias) as [v|]; [|done].
  destruct (PyStr.truthy v); [|done]. intros [= <-]. apply strip_idem.
Qed.

(** The steps of [normalize_row] after the defaults are set. *)
Lemma normalize_row_tail N row d :
  let normalized :=
    match _resolve N row "seriousness" with
    | Some seriousness =>
        if PyStr.truthy seriousness
        then setdefault "seriousness" (normal_seriousness seriousness) d
        else d
    | None => d
    end in
  let normalized := set_if "suspect_drug" (_resolve N row "suspect_drug") normalized in
  let normalized := set_if "dose_text" (_resolve N row "dose_text") normalized in
  let normalized := set_if "outcome" (_resolve N row "outcome") normalized in
  let normalized := set_if "onset_date" (_resolve N row "onset_date") normalized in
  let narrative := _resolve N row "narrative" in
  let final :=
    if opt_truthy narrative
    then set_if "narrative" narrative normalized
    else
      match row !! "indication" with
      | Some indication =>
          if PyStr.truthy indication
          then setdefault "narrative" (PyStr.strip indication) normalized
          else normalized
      | None => normalized
      end in
  d ⊆ final
  ∧ ∀ k, k ∈ ["reaction_reported_term"; "meddra_term_text"; "meddra_code";
              "meddra_level"; "meddra_version"; "case_id"] →
         final !! k = d !! k.
Proof.
  cbv zeta. split.
  - repeat first
      [ reflexivity
      | apply set_if_subseteq
      | apply setdefault_subseteq
      | match goal with |- context [if ?b then _ else _] => destruct b end
      | match goal with |- context [match ?o with Some _ => _ | None => _ end] =>
          destruct o
        end ].
  - intros k Hk.
    assert (k ≠ "seriousness" ∧ k ≠ "suspect_drug" ∧ k ≠ "dose_text" ∧ k ≠ "outcome"
            ∧ k ≠ "onset_date" ∧ k ≠ "narrative") as (H1 & H2 & H3 & H4 & H5 & H6).
    { repeat (apply elem_of_cons in Hk as [->|Hk]; [by split_and!|]).
      by apply elem_of_nil in Hk. }
    repeat first
      [ reflexivity
      | rewrite set_if_lookup_ne by done
      | rewrite setdefault_lookup_ne by done
      | match goal with |- context [if ?b then _ else _] => destruct b end
      | match goal with |- context [match ?o with Some _ => _ | None => _ end] =>
          destruct o
        end ].
Qed.

(** X12: [normalize_row] only adds keys: every key of the row keeps its
    value, whatever the aliases say.  The result always has a
    [meddra_level] and a [meddra_version], the defaults of the normalizer
    when the row has none. *)
Theorem normalize_row_only_adds N row :
  row ⊆ normalize_row N row
  ∧ normalize_row N row !! "meddra_level"
      = Some (default (default_meddra_level N) (row !! "meddra_level"))
  ∧ normalize_row N row !! "meddra_version"
      = Some (default (default_meddra_version N) (row !! "meddra_version")).
Proof.
  unfold normalize_row. cbv zeta.
  match goal with |- context [setdefault "meddra_version" ?v ?d] =>
    set (base := setdefault "meddra_version" v d)
  end.
  destruct (normalize_row_tail N row base) as [Hsub Hkeys]. cbv zeta in Hsub, Hkeys.
  split_and!.
  - etrans; [|exact Hsub]. unfold base.
    by repeat first [apply setdefault_subseteq | apply set_if_subseteq].
  - rewrite Hkeys by (do 3 right; left). unfold base.
    rewrite setdefault_lookup_ne, setdefault_lookup by done.
    by rewrite !set_if_lookup_ne by done.
  - rewrite Hkeys by (do 4 right; left). unfold base.
    rewrite setdefault_lookup, setdefault_lookup_ne by done.
    by rewrite !set_if_lookup_ne by done.
Qed.

(** X13: a row that has a reaction term under one of its aliases, no
    [meddra_term_text] and no MedDRA code under any alias comes out of the
    normalizer with the term copied to [meddra_term_text] and still no
    code: the validator rejects the record, for text and code must come
    together. *)
Theorem reaction_without_code_is_rejected N strptime today row term :
  _resolve N row "reaction_reported_term" = Some term →
  term ≠ "" →
  row !! "meddra_term_text" = None →
  row !! "meddra_code" = None →
  opt_truthy (_resolve N row "meddra_code") = false →
  let r := from_dict strptime (normalize_row N row) in
  meddra_term_text r = Some term
  ∧ meddra_code r = None
  ∧ msg_pair ∈ errors (validate today r)
  ∧ is_valid (validate today r) = false.
Proof.
  intros Hterm Hne Htext Hcode Hnocode r.
  assert (normalize_row N row !! "meddra_term_text" = Some term
          ∧ normalize_row N row !! "meddra_code" = None) as [Ht Hc].
  { unfold normalize_row. cbv zeta.
    match goal with |- context [setdefault "meddra_version" ?v ?d] =>
      set (base := setdefault "meddra_version" v d)
    end.
    destruct (normalize_row_tail N row base) as [_ Hkeys]. cbv zeta in Hkeys.
    rewrite (Hkeys "meddra_term_text") by (right; left).
    rewrite (Hkeys "meddra_code") by (do 2 right; left).
    unfold base. rewrite !setdefault_lookup_ne by done.
    rewrite Hterm. split.
    - rewrite set_if_lookup_ne by done. unfold set_if at 1.
      rewrite (proj2 (truthy_ne term)) by done.
      rewrite setdefault_lookup, set_if_lookup_ne, Htext by done. done.
    - unfold set_if at 1. unfold opt_truthy in Hnocode.
      destruct (_resolve N row "meddra_code") as [code|]; simpl in Hnocode.
      + rewrite Hnocode. by rewrite !set_if_lookup_ne by done.
      + by rewrite !set_if_lookup_ne by done. }
  assert (meddra_term_text r = Some term) as Htext_r.
  { unfold r, from_dict; cbn [meddra_term_text]. rewrite Ht. unfold _clean. cbv zeta.
    rewrite (first_alias_stripped _ _ _ Hterm).
    by rewrite (proj2 (truthy_ne term)). }
  assert (meddra_code r = None) as Hcode_r.
  { unfold r, from_dict; cbn [meddra_code]. by rewrite Hc. }
  assert (msg_pair ∈ errors (validate today r)) as Hin.
  { rewrite validate_errors, !elem_of_app. do 3 right. left.
    unfold check_pair. rewrite Htext_r, Hcode_r. unfold opt_truthy; simpl.
    rewrite (proj2 (truthy_ne term)) by done. simpl. left. }
  split_and!; [done..|].
  rewrite validate_is_valid. destruct (errors (validate today r)); [|done].
  by apply elem_of_nil in Hin.
Qed.

End NormalizerMore.

(** ** The workers of execution/ and the batch of scripts/run_batch.py *)

Section WorkersMore.

Context {W : Type} (process_job : W → JobItem → W * answer).

Implicit Types (m : machine W) (d : dispatch) (ds : list dispatch) (l job : loc)
  (h : list JobItem) (w : W) (results : list ValidationResult).

Lemma steps_answers m ds m' d :
  steps process_job m ds m' → d ∈ ds → ∃ s j, d_answer d = (process_job s j).2.
Proof.
  induction 1 as [m|m d0 m1 ds m2 Hstep Hsteps IH]; [by intros ?%elem_of_nil|].
  intros [->|Hd]%elem_of_cons; [|auto].
  apply step_Continue in Hstep as (job & rest & j & _ & _ & _ & Hans & _). eauto.
Qed.

Lemma steps_worker_kept m ds m' :
  (∀ s j, (process_job s j).1 = s) →
  steps process_job m ds m' → worker (orch m') = worker (orch m).
Proof.
  intros Hkeep. induction 1 as [m|m d0 m1 ds m2 Hstep Hsteps IH]; [done|].
  apply step_Continue in Hstep as (job & rest & j & _ & _ & _ & _ & _ & Hw & _).
  by rewrite IH, Hw, Hkeep.
Qed.

Lemma jobs_answered_none a ds :
  (∀ d, d ∈ ds → d_answer d ≠ a) → jobs_answered a ds = [].
Proof.
  induction ds as [|d ds IH]; [done|]. intros Hall.
  rewrite jobs_answered_cons, bool_decide_eq_false_2 by (apply Hall; left).
  apply IH. intros d' Hd'. apply Hall. by right.
Qed.

Lemma jobs_answered_all a ds :
  (∀ d, d ∈ ds → d_answer d = a) → jobs_answered a ds = d_job <$> ds.
Proof.
  induction ds as [|d ds IH]; [done|]. intros Hall.
  rewrite jobs_answered_cons, bool_decide_eq_true_2 by (apply Hall; left).
  rewrite fmap_cons, IH; [done|]. intros d' Hd'. apply Hall. by right.
Qed.

(** A run in which no call answers [False] is one pass over the queue. *)
Lemma single_pass h w results ds m :
  (∀ s j, (process_job s j).2 ≠ Retry) →
  run_returns process_job h (Orchestrator_init w None) results ds m →
  d_job <$> ds = seq (length h) (length (valid_records results))
  ∧ retry_count (report m) = 0
  ∧ dead m = []
  ∧ failed_jobs (report m) = jobs_answered Raised ds
  ∧ success_count (report m) = Z.of_nat (length (jobs_answered Success ds))
  ∧ (∀ i r, valid_records results !! i = Some r →
       heap m !! (length h + i)%nat = Some (new_JobItem r)).
Proof.
  intros Hnever (m1 & Hsteps & Hend & ->)%run_returns_steps.
  destruct (fresh_machine h w results) as (Hq0 & Hd0 & Hr0 & Hnd0 & Hheap0).
  assert (jobs_answered Retry ds = []) as Hretry.
  { apply jobs_answered_none. intros d Hd.
    destruct (steps_answers _ _ _ _ Hsteps Hd) as (s & j & ->). apply Hnever. }
  destruct (steps_accounts _ _ _ _ Hsteps) as (Hf & Hs & Hr & _ & _ & (dl & Hd & Hdl) & _).
  rewrite Hr0 in Hf, Hs, Hr. rewrite Hd0, Hretry in *. simpl in Hf, Hs, Hr, Hd.
  assert (dl = []) as ->.
  { destruct dl as [|x dl]; [done|]. specialize (Hdl x ltac:(left)).
    by apply elem_of_nil in Hdl. }
  destruct (run_first_pass _ _ _ _ _ _ Hsteps Hend) as (ds1 & ds2 & Heq & Hjobs & Hagain).
  assert (ds2 = []) as ->.
  { destruct ds2 as [|d ds2]; [done|]. exfalso.
    assert (d_job d ∈ jobs_answered Retry ds).
    { rewrite Heq, jobs_answered_app. apply elem_of_app.
      destruct (decide (d_job d ∈ jobs_answered Retry ds1)) as [?|Hno]; [by left|].
      exfalso.
      assert (NoDup (jobs_answered Success ds ++ jobs_answered Raised ds ++ dead m1))
        as Hnd.
      { destruct (steps_accounts _ _ _ _ Hsteps) as (_ & _ & _ & _ & _ & _ & Hp).
        rewrite Hd0, Hq0, Hend, app_nil_r in Hp. simpl in Hp.
        rewrite Hp. apply NoDup_seq. }
      pose proof (count_job_NoDup (d_job d) _ Hnd) as Hone.
      rewrite !count_job_app in Hone.
      assert (dispatched (d_job d) ds ≤ 1)%nat as Hdisp
        by (rewrite dispatched_by_answer, Hretry; unfold count_job at 3; simpl; lia).
      assert (d_job d ∈ (d_job <$> ds1)) as Hin1.
      { rewrite Hjobs, <- Hq0. apply (steps_dispatched_pending _ _ _ _ _ Hsteps).
        rewrite Heq, fmap_app, fmap_cons. apply elem_of_app. right. left. }
      apply count_job_elem in Hin1.
      unfold dispatched in Hdisp. rewrite Heq, fmap_app, fmap_cons in Hdisp.
      rewrite count_job_app, count_job_cons, decide_True in Hdisp by done. lia. }
    rewrite Hretry in H. by apply elem_of_nil in H. }
  rewrite app_nil_r in Heq. subst ds1.
  change (retry_count (report (finalize m1))) with (retry_count (report m1)).
  change (success_count (report (finalize m1))) with (success_count (report m1)).
  change (dead (finalize m1)) with (dead m1).
  split_and!; [done | by rewrite Hr | done | | by rewrite Hs |].
  - unfold finalize, dead_letter; simpl. fold (dead m1). by rewrite Hf, Hd, app_nil_r.
  - intros i r Hr'. change (heap (finalize m1)) with (heap m1).
    assert (heap (enqueue_valid h (Orchestrator_init w None) results)
              !! (length h + i)%nat = Some (new_JobItem r)) as Hj.
    { rewrite enqueue_valid_eq. cbn [heap]. rewrite lookup_app_r by lia.
      replace (length h + i - length h)%nat with i by lia.
      by rewrite list_lookup_fmap, Hr'. }
    pose proof (steps_heap _ _ _ _ _ _ Hsteps Hj) as Hfin.
    rewrite Hretry in Hfin. by rewrite retried_0 in Hfin.
Qed.

(** X14: with a worker that never answers [False], as the Playwright and
    the Selenium worker, nothing is retried: the worker is called exactly
    once for each valid record, in the order of the input; [retry_count]
    is 0 and the dead-letter list stays empty; the failed jobs are those
    whose call raised, every other valid record is a success, and every
    job stays as it was enqueued. *)
Theorem run_without_retries h w results ds m :
  (∀ s j, (process_job s j).2 ≠ Retry) →
  run_returns process_job h (Orchestrator_init w None) results ds m →
  d_job <$> ds = seq (length h) (length (valid_records results))
  ∧ length ds = length (valid_records results)
  ∧ retry_count (report m) = 0
  ∧ dead m = []
  ∧ failed_jobs (report m) = jobs_answered Raised ds
  ∧ success_count (report m) + Z.of_nat (length (failed_jobs (report m)))
      = Z.of_nat (length (valid_records results))
  ∧ (∀ i r, valid_records results !! i = Some r →
       heap m !! (length h + i)%nat = Some (new_JobItem r)).
Proof.
  intros Hnever Hrun.
  destruct (single_pass h w results ds m Hnever Hrun)
    as (Hjobs & Hretry & Hdead & Hf & Hs & Hheap).
  assert (length ds = length (valid_records results)) as Hlen.
  { by rewrite <- (length_fmap d_job ds), Hjobs, length_seq. }
  split_and!; try done.
  rewrite (run_accounts_any_queue process_job _ _ _ _ _ Hrun). simpl. f_equal.
Qed.

End WorkersMore.

Section ShippedWorkers.

Context {B : Type} (session : B → JobItem → B * bool).

Lemma playwright_never_retries self installed s job :
  (playwright_process_job session self installed s job).2 ≠ Retry.
Proof.
  unfold playwright_process_job.
  destruct (dry_run self); [done|].
  destruct (negb (opt_truthy (target_url self))); [done|].
  destruct (negb installed); [done|].
  destruct (session s job) as [s' []]; done.
Qed.

Lemma selenium_never_retries installed s job :
  (selenium_process_job session installed s job).2 ≠ Retry.
Proof.
  unfold selenium_process_job. destruct (negb installed); [done|].
  destruct (session s job) as [s' []]; done.
Qed.

(** X15: a batch with the Playwright worker.  In a dry run every valid
    record is a success, nothing fails, the browser is not used and the
    exit status is 0, whatever the validation errors.  Without dry run
    and without target URL every call raises: every valid record is a
    failed job, and the exit status is 0 only when no record is valid. *)
Theorem playwright_batch self installed h s results ds m :
  run_returns (playwright_process_job session self installed) h
    (Orchestrator_init s None) results ds m →
  let enqueued := seq (length h) (length (valid_records results)) in
  d_job <$> ds = enqueued
  ∧ retry_count (report m) = 0
  ∧ (dry_run self = true →
     success_count (report m) = Z.of_nat (length (valid_records results))
     ∧ failed_jobs (report m) = []
     ∧ exit_status (report m) = 0
     ∧ worker (orch m) = s)
  ∧ (dry_run self = false → opt_truthy (target_url self) = false →
     success_count (report m) = 0
     ∧ failed_jobs (report m) = enqueued
     ∧ (exit_status (report m) = 0 ↔ valid_records results = [])
     ∧ worker (orch m) = s).
Proof.
  intros Hrun enqueued.
  destruct (single_pass _ h s results ds m
              (playwright_never_retries self installed) Hrun)
    as (Hjobs & Hretry & _ & Hf & Hs & _).
  apply run_returns_steps in Hrun as (m1 & Hsteps & Hend & ->).
  split_and!; [done | done | |].
  - intros Hdry.
    assert (∀ s' j, playwright_process_job session self installed s' j = (s', Success))
      as Hall by (intros; unfold playwright_process_job; by rewrite Hdry).
    assert (∀ d, d ∈ ds → d_answer d = Success) as Hans.
    { intros d Hd. destruct (steps_answers _ _ _ _ _ Hsteps Hd) as (s' & j & ->).
      by rewrite Hall. }
    assert (jobs_answered Raised ds = []) as Hnone.
    { apply jobs_answered_none. intros d Hd. rewrite (Hans d Hd). discriminate. }
    rewrite Hf, Hs, Hnone, (jobs_answered_all _ _ Hans), Hjobs, length_seq.
    split_and!; [done | done | |].
    + unfold exit_status. by rewrite Hf, Hnone.
    + change (worker (orch (finalize m1))) with (worker (orch m1)).
      rewrite (steps_worker_kept _ _ _ _ (λ s' j, f_equal fst (Hall s' j)) Hsteps).
      by rewrite enqueue_valid_eq.
  - intros Hdry Hurl.
    assert (∀ s' j, playwright_process_job session self installed s' j = (s', Raised))
      as Hall by (intros; unfold playwright_process_job; by rewrite Hdry, Hurl).
    assert (∀ d, d ∈ ds → d_answer d = Raised) as Hans.
    { intros d Hd. destruct (steps_answers _ _ _ _ _ Hsteps Hd) as (s' & j & ->).
      by rewrite Hall. }
    assert (jobs_answered Success ds = []) as Hnone.
    { apply jobs_answered_none. intros d Hd. rewrite (Hans d Hd). discriminate. }
    rewrite Hf, Hs, Hnone, (jobs_answered_all _ _ Hans), Hjobs.
    split_and!; [done | done | |].
    + unfold exit_status. rewrite Hf, (jobs_answered_all _ _ Hans), Hjobs.
      destruct (valid_records results); simpl; split; congruence.
    + change (worker (orch (finalize m1))) with (worker (orch m1)).
      rewrite (steps_worker_kept _ _ _ _ (λ s' j, f_equal fst (Hall s' j)) Hsteps).
      by rewrite enqueue_valid_eq.
Qed.

(** X17: a batch with the Selenium worker: the worker is called once for
    each valid record, nothing is retried, and the exit status is 0
    exactly when every valid record is a success.  When Selenium is not
    installed every valid record is a success and the browser is not
    used. *)
Theorem selenium_batch installed h s results ds m :
  run_returns (selenium_process_job session installed) h
    (Orchestrator_init s None) results ds m →
  d_job <$> ds = seq (length h) (length (valid_records results))
  ∧ retry_count (report m) = 0
  ∧ (exit_status (report m) = 0 ↔
     success_count (report m) = Z.of_nat (length (valid_records results)))
  ∧ (installed = false →
     success_count (report m) = Z.of_nat (length (valid_records results))
     ∧ failed_jobs (report m) = []
     ∧ worker (orch m) = s).
Proof.
  intros Hrun.
  destruct (single_pass _ h s results ds m (selenium_never_retries installed) Hrun)
    as (Hjobs & Hretry & _ & Hf & Hs & _).
  pose proof (run_accounts_any_queue _ _ _ _ _ _ Hrun) as Hsum. simpl in Hsum.
  apply run_returns_steps in Hrun as (m1 & Hsteps & Hend & ->).
  split_and!; [done | done | |].
  - unfold exit_status. destruct (failed_jobs (report (finalize m1))) as [|l fs] eqn:Hfs.
    + simpl in *. split; [lia | done].
    + simpl in *. split; [done | lia].
  - intros ->.
    assert (∀ s' j, selenium_process_job session false s' j = (s', Success))
      as Hall by done.
    assert (∀ d, d ∈ ds → d_answer d = Success) as Hans.
    { intros d Hd. destruct (steps_answers _ _ _ _ _ Hsteps Hd) as (s' & j & ->).
      by rewrite Hall. }
    assert (jobs_answered Raised ds = []) as Hnone.
    { apply jobs_answered_none. intros d Hd. rewrite (Hans d Hd). discriminate. }
    rewrite Hf, Hs, Hnone, (jobs_answered_all _ _ Hans), Hjobs, length_seq.
    split_and!; [done | done |].
    change (worker (orch (finalize m1))) with (worker (orch m1)).
    rewrite (steps_worker_kept _ _ _ _ (λ s' j, f_equal fst (Hall s' j)) Hsteps).
    by rewrite enqueue_valid_eq.
Qed.

End ShippedWorkers.

Section BatchMore.

Context {W : Type} (process_job : W → JobItem → W * answer).
Variable strptime : string → string → option date.

(** X16: in a batch made by the normalizer, [from_dict] and the validator,
    there is a result for each row; every job of the queue holds the
    record of a row, and the validator finds no error in it, at the end
    as at the start; every entry of [validation_errors] is the result of
    a record with at least one error. *)
Theorem batch_enqueues_error_free_records N today raw_rows h w ds m :
  let results := batch_results N strptime today raw_rows in
  run_returns process_job h (Orchestrator_init w None) results ds m →
  length results = length raw_rows
  ∧ (∀ l j, (length h ≤ l)%nat → heap m !! l = Some j →
       errors (validate today (record j)) = []
       ∧ ∃ row, row ∈ raw_rows ∧ record j = from_dict strptime (normalize_row N row))
  ∧ (∀ result, result ∈ validation_errors (report m) →
       errors result ≠ []
       ∧ ∃ row, row ∈ raw_rows
                ∧ result = validate today (from_dict strptime (normalize_row N row))).
Proof.
  intros results (m1 & Hsteps & Hend & ->)%run_returns_steps.
  assert (∀ result, result ∈ results →
            ∃ row, row ∈ raw_rows
                   ∧ result = validate today (from_dict strptime (normalize_row N row)))
    as Hres.
  { intros result Hin. unfold results, batch_results, validate_many,
      records_from_iterable, normalize_rows in Hin.
    rewrite !map_map in Hin. apply list_elem_of_In, in_map_iff in Hin as (row & <- & Hrow).
    exists row. split; [by apply list_elem_of_In | done]. }
  split_and!.
  - unfold results, batch_results, validate_many, records_from_iterable, normalize_rows.
    by rewrite !length_map.
  - intros l j Hl Hj. change (heap (finalize m1)) with (heap m1) in Hj.
    destruct (steps_accounts _ _ _ _ Hsteps) as (_ & _ & _ & _ & Hlen & _).
    destruct (lookup_lt_is_Some_2 (heap (enqueue_valid h (Orchestrator_init w None) results))
                l) as [j0 Hj0].
    { rewrite <- Hlen. by eapply lookup_lt_Some. }
    pose proof (steps_heap _ _ _ _ _ _ Hsteps Hj0) as Hfin.
    assert (Some j = Some (retried (count_job l (jobs_answered Retry ds)) j0)) as [= ->]
      by (rewrite <- Hj; exact Hfin).
    clear Hfin. rewrite enqueue_valid_eq in Hj0. cbn [heap] in Hj0.
    rewrite lookup_app_r in Hj0 by done.
    apply list_lookup_fmap_Some in Hj0 as (r & -> & Hr).
    apply list_elem_of_lookup_2 in Hr. unfold valid_records in Hr.
    apply list_elem_of_fmap in Hr as (result & -> & Hin).
    apply list_elem_of_In, List.filter_In in Hin as [Hin Hvalid].
    apply list_elem_of_In, Hres in Hin as (row & Hrow & ->).
    cbn [retried record new_JobItem result_record validate]. split.
    + rewrite validate_is_valid, negb_true_iff in Hvalid.
      by apply list_truthy_false in Hvalid.
    + eauto.
  - intros result Hin. change (report (finalize m1)) with
      (mkReport (success_count (report m1)) (retry_count (report m1))
         (failed_jobs (report m1) ++ dead_letter (queue (orch m1)))
         (validation_errors (report m1))) in Hin. cbn [validation_errors] in Hin.
    destruct (steps_accounts _ _ _ _ Hsteps) as (_ & _ & _ & Hv & _).
    rewrite Hv, enqueue_valid_eq in Hin. cbn [report validation_errors] in Hin.
    apply list_elem_of_In, List.filter_In in Hin as [Hin Hinvalid].
    apply list_elem_of_In, Hres in Hin as (row & Hrow & ->).
    split; [|eauto]. rewrite validate_is_valid, negb_involutive in Hinvalid.
    intros Heq. by rewrite Heq in Hinvalid.
Qed.

End BatchMore.

(** ** More of the code on sample inputs *)



Lemma parse_date_first_format_witness :
  _parse_date sample_strptime "05-03-2024" = Some (mkdate 2024 3 5).
Proof.
  apply (proj1 (parse_date_first_format sample_strptime "05-03-2024")).
  exists 2%nat, "%d-%m-%Y". split; [reflexivity|]. split; [reflexivity|].
  intros k fmt' Hk Hfmt.
  destruct k as [|[|k]]; [injection Hfmt as <- | injection Hfmt as <- | lia]; reflexivity.
Defined.

Lemma from_dict_without_case_id_witness :
  let r := from_dict sample_strptime {[ "case_id" := "   "; "onset_date" := "2024-03-05" ]} in
  case_id r = "" ∧ is_valid (validate sample_today r) = false.
Proof.
  intros r.
  destruct (proj2 (from_dict_without_case_id sample_strptime sample_today
                     {[ "case_id" := "   "; "onset_date" := "2024-03-05" ]}))
    as (Hid & Hinvalid & _).
  - right. exists "   ". split; vm_compute; reflexivity.
  - split; [exact Hid | exact Hinvalid].
Defined.

(** A batch of three valid records, of which the second is retried once. *)
Lemma first_dispatches_in_input_order_witness :
  ∃ ds m,
    run_returns scripted [] (Orchestrator_init [Success; Retry; Success; Success] None)
      [sample_result "CASE-A"; sample_result "CASE-B"; sample_result "CASE-C"] ds m
    ∧ d_job <$> ds = [0; 1; 2; 1]%nat
    ∧ take 3 (d_job <$> ds) = [0; 1; 2]%nat.
Proof.
  eexists _, _. split; [exists 10%nat; vm_compute; reflexivity|].
  split; [reflexivity|].
  match goal with |- take 3 (d_job <$> ?ds) = _ => set (log := ds) end.
  eapply (proj1 (first_dispatches_in_input_order scripted []
                   [Success; Retry; Success; Success]
                   [sample_result "CASE-A"; sample_result "CASE-B"; sample_result "CASE-C"]
                   log _ _)).
  Unshelve. 2: { exists 10%nat. vm_compute. reflexivity. }
Defined.

Lemma worker_calls_bounded_witness :
  ∃ ds m,
    run_returns scripted [] (Orchestrator_init [Success; Retry; Retry; Retry] None)
      [sample_result "CASE-A"; sample_result "CASE-B"] ds m
    ∧ length ds = 4%nat
    ∧ (length ds ≤ 3 * 2)%nat
    ∧ (1 ≤ dispatched 1%nat ds ≤ 3)%nat.
Proof.
  eexists _, _. split; [exists 10%nat; vm_compute; reflexivity|].
  split; [reflexivity|].
  match goal with |- context [dispatched _ ?ds] => set (log := ds) end.
  pose proof (worker_calls_bounded scripted [] [Success; Retry; Retry; Retry]
                [sample_result "CASE-A"; sample_result "CASE-B"] log _
                ltac:(exists 10%nat; vm_compute; reflexivity)) as (_ & Hjob & Hlen & _).
  split; [exact Hlen|]. apply Hjob. vm_compute. right. left.
Defined.

Lemma total_attempted_counts_witness :
  ∃ ds m,
    run_returns (always Retry) [] (Orchestrator_init tt None) [sample_result "CASE-3"] ds m
    ∧ total_attempted (report m) = 4
    ∧ total_attempted (report m) = Z.of_nat (length ds + length (dead m)).
Proof.
  eexists _, _. split; [exists 10%nat; vm_compute; reflexivity|].
  split; [reflexivity|].
  apply (total_attempted_counts (always Retry) [] tt [sample_result "CASE-3"]).
  exists 10%nat. vm_compute. reflexivity.
Defined.

Lemma run_without_valid_results_witness :
  ∃ ds m,
    run_returns (always Raised) [] (Orchestrator_init tt None) [sample_result ""] ds m
    ∧ ds = []
    ∧ report m = mkReport 0 0 [] [sample_result ""].
Proof.
  eexists _, _. split; [exists 10%nat; vm_compute; reflexivity|].
  match goal with |- ?ds = [] ∧ report ?m = _ =>
    destruct (run_without_valid_results (always Raised) [] tt [sample_result ""] ds m)
      as (Hds & Hrep & _)
  end.
  - intros result ->%list_elem_of_singleton. vm_compute. reflexivity.
  - exists 10%nat. vm_compute. reflexivity.
  - split; [exact Hds | exact Hrep].
Defined.

(** The dead letter of the earlier run is reported again. *)
Lemma run_on_used_orchestrator_witness :
  ∃ ds m,
    run_returns (always Success) used_heap used_orchestrator [sample_result "NEW"] ds m
    ∧ success_count (report m) = 2
    ∧ failed_jobs (report m) = [0%nat]
    ∧ success_count (report m) + Z.of_nat (length (failed_jobs (report m)))
        = Z.of_nat (1 + 1 + 1).
Proof.
  eexists _, _. split; [exists 10%nat; vm_compute; reflexivity|].
  split; [reflexivity|]. split; [reflexivity|].
  match goal with |- context [report ?m] => set (mach := m) end.
  destruct (proj2 (run_on_used_orchestrator (always Success) used_heap used_orchestrator
                     [sample_result "NEW"]
                     ltac:(intros l ->%list_elem_of_singleton; vm_compute; lia))
              [mkDispatch 1%nat Success [2%nat]; mkDispatch 2%nat Success []] mach)
    as [Hsum _].
  - exists 10%nat. vm_compute. reflexivity.
  - exact Hsum.
Defined.

Lemma dead_letters_are_kept_witness :
  ∃ log s',
    calls (always Retry) (used_heap, used_orchestrator)
      [Dequeue; Requeue 1%nat "flaky"; Run [sample_result "NEW"]] log s'
    ∧ [0%nat] `prefix_of` _dead_letter (queue s'.2)
    ∧ _dead_letter (queue s'.2) = [0; 1; 2]%nat.
Proof.
  eexists _, _.
  match goal with |- ?C ∧ _ => assert C as Hcalls end.
  { eapply calls_cons; [eapply call_dequeue; reflexivity|].
    eapply calls_cons; [eapply call_requeue; reflexivity|].
    eapply calls_cons; [eapply call_run; exists 10%nat; vm_compute; reflexivity|].
    apply calls_nil. }
  split; [exact Hcalls|]. split; [|reflexivity].
  exact (dead_letters_are_kept _ _ _ _ _ Hcalls).
Defined.

(** Two failed jobs with the same case id leave one entry, of the later. *)
Lemma failed_job_details_last_wins_witness :
  let jobs := [mkJobItem (sample_record "CASE-9") 0 3 [];
               mkJobItem (sample_record "CASE-9") 3 3 ["a"; "b"; "c"]] in
  failed_jobs_to_dict jobs !! "CASE-9" = Some (3, ["a"; "b"; "c"])
  ∧ (size (failed_jobs_to_dict jobs) ≤ 2)%nat
  ∧ size (failed_jobs_to_dict jobs) ≠ 2%nat
  ∧ failed_case_ids jobs = ["CASE-9"; "CASE-9"].
Proof.
  intros jobs.
  destruct (failed_job_details_last_wins jobs) as (Hlookup & Hle & Hiff & _).
  split; [rewrite Hlookup; reflexivity|]. split; [exact Hle|]. split; [|reflexivity].
  intros Hsize. apply Hiff in Hsize. apply NoDup_cons in Hsize as [Hnotin _].
  apply Hnotin. left.
Defined.

Lemma normalize_row_only_adds_witness :
  sample_row_term_only ⊆ normalize_row RecordNormalizer_init sample_row_term_only
  ∧ normalize_row RecordNormalizer_init sample_row_term_only !! "meddra_level" = Some "PT"
  ∧ normalize_row RecordNormalizer_init sample_row_term_only !! "reaction_term"
      = Some " Headache ".
Proof.
  destruct (normalize_row_only_adds RecordNormalizer_init sample_row_term_only)
    as (Hsub & Hlevel & _).
  split; [exact Hsub|]. split; [exact Hlevel|].
  apply (lookup_weaken _ _ _ _ (eq_refl : sample_row_term_only !! "reaction_term"
                                           = Some " Headache ") Hsub).
Defined.

Lemma reaction_without_code_is_rejected_witness :
  let r := from_dict sample_strptime
             (normalize_row RecordNormalizer_init sample_row_term_only) in
  meddra_term_text r = Some "Headache"
  ∧ meddra_code r = None
  ∧ is_valid (validate sample_today r) = false
  ∧ is_valid (validate sample_today
                (from_dict sample_strptime
                   (normalize_row RecordNormalizer_init sample_row_complete))) = true.
Proof.
  intros r.
  destruct (reaction_without_code_is_rejected RecordNormalizer_init sample_strptime
              sample_today sample_row_term_only "Headache")
    as (Htext & Hcode & _ & Hinvalid);
    [vm_compute; reflexivity | discriminate | vm_compute; reflexivity..|].
  split; [exact Htext|]. split; [exact Hcode|]. split; [exact Hinvalid|].
  vm_compute. reflexivity.
Defined.

Lemma run_without_retries_witness :
  ∃ ds m,
    run_returns (raise_only "CASE-B") [] (Orchestrator_init tt None)
      [sample_result "CASE-A"; sample_result "CASE-B"; sample_result "CASE-C"] ds m
    ∧ d_job <$> ds = [0; 1; 2]%nat
    ∧ retry_count (report m) = 0
    ∧ failed_jobs (report m) = [1%nat].
Proof.
  eexists _, _. split; [exists 10%nat; vm_compute; reflexivity|].
  match goal with |- context [report ?m] => set (mach := m) end.
  destruct (run_without_retries (raise_only "CASE-B") [] tt
              [sample_result "CASE-A"; sample_result "CASE-B"; sample_result "CASE-C"]
              [mkDispatch 0%nat Success [1; 2]%nat; mkDispatch 1%nat Raised [2%nat];
               mkDispatch 2%nat Success []] mach)
    as (Hjobs & _ & Hretry & _ & Hfailed & _).
  - intros s j. unfold raise_only. simpl.
    destruct (String.eqb (case_id (record j)) "CASE-B"); discriminate.
  - exists 10%nat. vm_compute. reflexivity.
  - split; [exact Hjobs|]. split; [exact Hretry|]. exact Hfailed.
Defined.

(** A dry run of two valid records and an invalid one. *)
Lemma playwright_batch_witness :
  ∃ ds m,
    run_returns (playwright_process_job sample_session (mkPlaywrightWorker true None) false)
      [] (Orchestrator_init tt None)
      [sample_result "CASE-A"; sample_result ""; sample_result "CASE-C"] ds m
    ∧ d_job <$> ds = [0; 1]%nat
    ∧ success_count (report m) = 2
    ∧ exit_status (report m) = 0.
Proof.
  eexists _, _. split; [exists 10%nat; vm_compute; reflexivity|].
  match goal with |- context [report ?m] => set (mach := m) end.
  destruct (playwright_batch sample_session (mkPlaywrightWorker true None) false [] tt
              [sample_result "CASE-A"; sample_result ""; sample_result "CASE-C"]
              [mkDispatch 0%nat Success [1%nat]; mkDispatch 1%nat Success []] mach)
    as (Hjobs & _ & Hdry & _).
  - exists 10%nat. vm_compute. reflexivity.
  - destruct (Hdry eq_refl) as (Hs & _ & Hexit & _).
    split; [exact Hjobs|]. split; [exact Hs | exact Hexit].
Defined.

(** Of the two sample rows, the one without a code is reported and the
    complete one is enqueued. *)
Lemma batch_enqueues_error_free_records_witness :
  ∃ ds m,
    run_returns (always Success) [] (Orchestrator_init tt None)
      (batch_results RecordNormalizer_init sample_strptime sample_today
         [sample_row_term_only; sample_row_complete]) ds m
    ∧ length (heap m) = 1%nat
    ∧ length (validation_errors (report m)) = 1%nat
    ∧ (∀ l j, (0 ≤ l)%nat → heap m !! l = Some j →
         errors (validate sample_today (record j)) = []).
Proof.
  eexists _, _. split; [exists 10%nat; vm_compute; reflexivity|].
  split; [reflexivity|]. split; [reflexivity|].
  match goal with |- context [heap ?m] => set (mach := m) end.
  destruct (batch_enqueues_error_free_records (always Success) sample_strptime
              RecordNormalizer_init sample_today
              [sample_row_term_only; sample_row_complete] [] tt
              [mkDispatch 0%nat Success []] mach)
    as (_ & Hheap & _).
  - exists 10%nat. vm_compute. reflexivity.
  - intros l j Hl Hj. exact (proj1 (Hheap l j Hl Hj)).
Defined.

(** Two valid records without Selenium installed. *)
Lemma selenium_batch_witness :
  ∃ ds m,
    run_returns (selenium_process_job sample_session false) [] (Orchestrator_init tt None)
      [sample_result "CASE-A"; sample_result "CASE-B"] ds m
    ∧ success_count (report m) = 2
    ∧ failed_jobs (report m) = [].
Proof.
  eexists _, _. split; [exists 10%nat; vm_compute; reflexivity|].
  match goal with |- context [report ?m] => set (mach := m) end.
  destruct (selenium_batch sample_session false [] tt
              [sample_result "CASE-A"; sample_result "CASE-B"]
              [mkDispatch 0%nat Success [1%nat]; mkDispatch 1%nat Success []] mach)
    as (_ & _ & _ & Hmissing).
  - exists 10%nat. vm_compute. reflexivity.
  - destruct (Hmissing eq_refl) as (Hs & Hf & _). split; [exact Hs | exact Hf].
Defined.
